(** * AutoView8: the semantic patcher ([semantic-patches.py])

    A shallow embedding of
    [scripts/v8dasm-builders/patch-utils/semantic-patches.py] and the
    verification of its specification.

    - Part 1 models the fragment of Python's [re] engine that the three
      detection patterns use: literals, [\s], negated one-character sets,
      the greedy quantifiers [*], [+], [?] applied to one-character items,
      and capture groups; [re.search] and [re.sub] are built on it.
    - Part 2 models the environment (files of the source tree, the log sink)
      and the [SemanticPatcher] class: the three executors, [apply_all] and
      [main].
    - Part 3 holds the definitions that the statements use: the rules as
      data, the outcomes of the specification, the shapes of the text that
      the rules rewrite, and concrete files and worlds.
    - Part 4 holds the lemmas and the theorems. *)

From Stdlib Require Import NArith Ascii String.
From stdpp Require Import gmap strings list.

Open Scope nat_scope.
Open Scope list_scope.

(** ** Part 1. Text and the regular-expression engine *)

(** A Python [str] is a sequence of Unicode code points. *)
Abbreviation char := N (only parsing).
Abbreviation text := (list N) (only parsing).

Definition chr (a : ascii) : char := N_of_ascii a.

(** An ASCII literal of the source, as text. *)
Definition txt (s : string) : text := map chr (list_ascii_of_string s).

Definition LF : char := 10%N.
Definition CR : char := 13%N.

(** [\s] on a [str] pattern: the code points for which [str.isspace] holds. *)
Definition is_space (c : char) : bool :=
  ((9 <=? c) && (c <=? 13) || (28 <=? c) && (c <=? 32)
   || (c =? 133) || (c =? 160) || (c =? 5760)
   || (8192 <=? c) && (c <=? 8202)
   || (c =? 8232) || (c =? 8233) || (c =? 8239) || (c =? 8287)
   || (c =? 12288))%N.

(** One-character items of a pattern: a literal, [\s], or [[^c]]. *)
Inductive charset :=
| Lit (c : char)
| Space
| Not (c : char).

Definition mem (cs : charset) (c : char) : bool :=
  match cs with
  | Lit d => (c =? d)%N
  | Space => is_space c
  | Not d => negb (c =? d)%N
  end.

(** A compiled pattern is a sequence of operations, as in [sre]: an item
    matched once, a greedy repeat of an item ([*], [+], [?]), or a mark that
    records the current offset (group [n] is delimited by the marks
    [2(n-1)] and [2(n-1)+1]). *)
Inductive op :=
| One (cs : charset)
| Star (cs : charset)
| Plus (cs : charset)
| Opt (cs : charset)
| Mark (k : nat).

Definition pattern := list op.

Definition marks := list (nat * nat).

Fixpoint get_mark (k : nat) (ms : marks) : option nat :=
  match ms with
  | [] => None
  | (k', i) :: ms' => if Nat.eqb k k' then Some i else get_mark k ms'
  end.

(** Greedy repeat: take as many characters of [cs] as possible, and give
    them back one at a time while the continuation [k] fails. *)
Fixpoint greedy {A : Type} (cs : charset) (k : nat -> text -> option A)
    (i : nat) (s : text) : option A :=
  match s with
  | c :: s' =>
      if mem cs c then
        match greedy cs k (S i) s' with
        | Some r => Some r
        | None => k i s
        end
      else k i s
  | [] => k i []
  end.

(** The backtracking matcher. [run p accept ms i s] matches [p] against a
    prefix of [s], which starts at offset [i] of the subject; it returns the
    end offset and the marks of the first successful path, in the priority
    order of the engine. [accept] is the test made on success at top level
    (the engine's [must_advance] check). *)
Fixpoint run (p : pattern) (accept : nat -> bool) (ms : marks)
    (i : nat) (s : text) : option (nat * marks) :=
  match p with
  | [] => if accept i then Some (i, ms) else None
  | One cs :: p' =>
      match s with
      | c :: s' => if mem cs c then run p' accept ms (S i) s' else None
      | [] => None
      end
  | Star cs :: p' => greedy cs (run p' accept ms) i s
  | Plus cs :: p' =>
      match s with
      | c :: s' => if mem cs c then greedy cs (run p' accept ms) (S i) s' else None
      | [] => None
      end
  | Opt cs :: p' =>
      match s with
      | c :: s' =>
          if mem cs c then
            match run p' accept ms (S i) s' with
            | Some r => Some r
            | None => run p' accept ms i s
            end
          else run p' accept ms i s
      | [] => run p' accept ms i []
      end
  | Mark k :: p' => run p' accept ((k, i) :: ms) i s
  end.

(** The result of a successful search: start, end, marks. *)
Definition found := (nat * nat * marks)%type.

(** [scan p adv i s]: the leftmost start offset at which [p] matches, trying
    every offset from [i] on ([s] is the subject from offset [i]). With
    [adv] an empty match at the first offset is refused. *)
Fixpoint scan (p : pattern) (adv : bool) (i : nat) (s : text) : option found :=
  match run p (fun e => negb (adv && Nat.eqb e i)) [] i s with
  | Some (e, ms) => Some (i, e, ms)
  | None =>
      match s with
      | [] => None
      | _ :: s' => scan p false (S i) s'
      end
  end.

(** [re.search(pattern, content)]. *)
Definition re_search (p : pattern) (content : text) : option found :=
  scan p false 0 content.

(** Replacement templates: literal text and group references ([\1]). *)
Inductive titem :=
| TLit (t : text)
| TGroup (n : nat).

Definition template := list titem.

Definition substr (s : text) (a b : nat) : text := firstn (b - a) (skipn a s).

Definition group (s : text) (ms : marks) (n : nat) : text :=
  match get_mark (2 * (n - 1)) ms, get_mark (2 * (n - 1) + 1) ms with
  | Some a, Some b => substr s a b
  | _, _ => []
  end.

Fixpoint expand (repl : template) (s : text) (ms : marks) : text :=
  match repl with
  | [] => []
  | TLit t :: r => t ++ expand r s ms
  | TGroup n :: r => group s ms n ++ expand r s ms
  end.

(** The loop of [re.sub]: find the next match in the rest of the subject,
    copy the text before it, add the expanded replacement, go on after the
    match; after an empty match the next one must advance. The offsets of
    each round are relative to the rest [s]. *)
Fixpoint sub_loop (fuel : nat) (p : pattern) (repl : template) (adv : bool)
    (s : text) : option text :=
  match fuel with
  | O => None
  | S fuel' =>
      match scan p adv 0 s with
      | None => Some s
      | Some (b, e, ms) =>
          match sub_loop fuel' p repl (Nat.eqb e b) (skipn e s) with
          | Some t => Some (firstn b s ++ expand repl s ms ++ t)
          | None => None
          end
      end
  end.

Definition sub_fuel (s : text) : nat := 2 * length s + 2.

(** [re.sub(pattern, repl, content)]. The fuel always suffices
    ([sub_loop_total] below), so the default is never taken. *)
Definition re_sub (p : pattern) (repl : template) (content : text) : text :=
  match sub_loop (sub_fuel content) p repl false content with
  | Some t => t
  | None => content
  end.

(** *** The three detection patterns and their replacements

    The flag [re.DOTALL] that two of the searches pass only changes the
    meaning of [.], which none of the patterns uses. *)

Definition lits (s : string) : pattern := map (fun c => One (Lit c)) (txt s).
Definition ws : op := Star Space.
Definition ws1 : op := Plus Space.

(** [\s*if\s*\(\s*len\s*>\s*kMaxShortPrintLength\s*\)\s*\{[^}]*\}\s*\n?] *)
Definition string_cc_pattern : pattern :=
  [ws] ++ lits "if" ++ [ws] ++ lits "(" ++ [ws] ++ lits "len" ++ [ws]
  ++ lits ">" ++ [ws] ++ lits "kMaxShortPrintLength" ++ [ws] ++ lits ")"
  ++ [ws] ++ lits "{" ++ [Star (Not (chr "}"))] ++ lits "}"
  ++ [ws; Opt (Lit LF)].

(** ['\n'] *)
Definition string_cc_repl : template := [TLit [LF]].

(** [\s*CHECK_EQ\s*\(\s*magic_number_\s*,\s*SerializedData::kMagicNumber\s*\)\s*;?\s*\n?] *)
Definition deserializer_cc_pattern : pattern :=
  [ws] ++ lits "CHECK_EQ" ++ [ws] ++ lits "(" ++ [ws] ++ lits "magic_number_"
  ++ [ws] ++ lits "," ++ [ws] ++ lits "SerializedData::kMagicNumber"
  ++ [ws] ++ lits ")" ++ [ws; Opt (Lit (chr ";")); ws; Opt (Lit LF)].

(** [''] *)
Definition deserializer_cc_repl : template := [].

(** [(SerializedCodeSanityCheckResult\s+SerializedCodeData::SanityCheck\s*]
    [\([^)]*\)\s*const\s*\{)\s*]
    [SerializedCodeSanityCheckResult\s+result\s*=\s*SanityCheckWithoutSource\s*\(\s*\)\s*;\s*]
    [if\s*\([^)]*\)\s*return\s+result\s*;\s*]
    [return\s+SanityCheckJustSource\s*\([^)]*\)\s*;] *)
Definition code_serializer_cc_pattern : pattern :=
  [Mark 0] ++ lits "SerializedCodeSanityCheckResult" ++ [ws1]
  ++ lits "SerializedCodeData::SanityCheck" ++ [ws]
  ++ lits "(" ++ [Star (Not (chr ")"))] ++ lits ")" ++ [ws] ++ lits "const"
  ++ [ws] ++ lits "{" ++ [Mark 1] ++ [ws]
  ++ lits "SerializedCodeSanityCheckResult" ++ [ws1] ++ lits "result" ++ [ws]
  ++ lits "=" ++ [ws] ++ lits "SanityCheckWithoutSource" ++ [ws] ++ lits "("
  ++ [ws] ++ lits ")" ++ [ws] ++ lits ";" ++ [ws]
  ++ lits "if" ++ [ws] ++ lits "(" ++ [Star (Not (chr ")"))] ++ lits ")" ++ [ws]
  ++ lits "return" ++ [ws1] ++ lits "result" ++ [ws] ++ lits ";" ++ [ws]
  ++ lits "return" ++ [ws1] ++ lits "SanityCheckJustSource" ++ [ws] ++ lits "("
  ++ [Star (Not (chr ")"))] ++ lits ")" ++ [ws] ++ lits ";".

(** [\1\n  return SerializedCodeSanityCheckResult::kSuccess;] *)
Definition code_serializer_cc_repl : template :=
  [TGroup 1; TLit (LF :: txt "  return SerializedCodeSanityCheckResult::kSuccess;")].

(** ** Part 2. The environment and the [SemanticPatcher] class *)

(** *** Files *)

(** A path is its sequence of components; [d / rel] appends components. *)
Abbreviation path := (list string) (only parsing).

(** A Python exception, with the text that [str(e)] gives. *)
Inductive exn := Exception (what : string).

(** A regular file: its text, and whether reading or writing it fails
    (permissions, a text that is not UTF-8, ...). *)
Record file := mkFile {
  content : text;
  read_fault : option exn;
  write_fault : option exn
}.

(** What is found at a path; a path with no entry has no file.
    [Denied e]: the path cannot be examined at all, [stat] raises [e]
    (a parent directory that may not be searched). *)
Inductive node :=
| File (f : file)
| Dir
| Denied (e : exn).

(** The lines handed to the log sink. The source gives them as (Chinese)
    f-strings; only their kind and their parameters are kept. *)
Inductive message :=
| Blank                                   (* ""                                   *)
| Started                                 (* start of the run                     *)
| Processing (name : string)              (* "processing {name}..."               *)
| FileMissing (p : path)                  (* "file does not exist: {file_path}"   *)
| ReadFailed (e : exn)                    (* "reading the file failed: {e}"       *)
| NotFound (name : string)                (* "{name}: pattern not found (maybe already applied)" *)
| AlreadyTarget (name : string)           (* "{name}: already in the target state" *)
| Unchanged (name : string)               (* "{name}: content unchanged"          *)
| Applied (name : string)                 (* "{name}: semantic patch applied"     *)
| WriteFailed (e : exn)                   (* "writing the file failed: {e}"       *)
| RuleRaised (name : string) (e : exn)    (* "exception while processing {name}: {e}" *)
| Tally (successes failures : nat).       (* "result: {s} succeeded, {f} failed"  *)

(** The world the patcher runs in: the file system, and the two destinations
    of the log sink (standard output and the log file), each as the lines
    appended so far. The log file is a collaborator kept apart from the files
    of the source tree, and its own failures are outside the model.
    [invoked] is ghost state: the catalogue entries whose function
    [apply_all] has called, in call order. *)
Record world := mkWorld {
  fs : gmap path node;
  stdout : list message;
  logfile : list message;
  invoked : list string
}.

(** *** Computations: state and exceptions *)

Inductive result (A : Type) :=
| Ret (a : A)
| Raise (e : exn).
Arguments Ret {A} a.
Arguments Raise {A} e.

Abbreviation M A := (world -> result A * world)%type (only parsing).

Definition ret {A} (a : A) : M A := fun w => (Ret a, w).
Definition raise {A} (e : exn) : M A := fun w => (Raise e, w).

Definition bind {A B} (m : M A) (k : A -> M B) : M B :=
  fun w => match m w with
           | (Ret a, w') => k a w'
           | (Raise e, w') => (Raise e, w')
           end.

(** [try: m  except Exception as e: h e] *)
Definition catch {A} (m : M A) (h : exn -> M A) : M A :=
  fun w => match m w with
           | (Ret a, w') => (Ret a, w')
           | (Raise e, w') => h e w'
           end.

(** The outcome of [m] as a value, for a [try] whose body binds a name that
    the code after the [try] statement uses. *)
Definition attempt {A} (m : M A) : M (result A) :=
  fun w => match m w with
           | (r, w') => (Ret r, w')
           end.

Declare Scope m_scope.
Delimit Scope m_scope with M.
Notation "x <- m ;; k" := (bind m (fun x => k))
  (at level 20, m at level 99, k at level 200, only parsing) : m_scope.
Notation "m ;; k" := (bind m (fun _ => k))
  (at level 100, k at level 200, right associativity, only parsing) : m_scope.
Open Scope m_scope.

(** *** File operations *)

(** Text mode with [newline=None]: on reading, [\r\n] and [\r] become [\n]. *)
Fixpoint universal_newlines (s : text) : text :=
  match s with
  | [] => []
  | c :: s' =>
      if (c =? CR)%N then
        LF :: match s' with
              | d :: s'' => if (d =? LF)%N then universal_newlines s''
                            else universal_newlines s'
              | [] => []
              end
      else c :: universal_newlines s'
  end.

(** [Path.exists()] *)
Definition path_exists (p : path) : M bool :=
  fun w => match fs w !! p with
           | None => (Ret false, w)
           | Some (Denied e) => (Raise e, w)
           | Some _ => (Ret true, w)
           end.

(** [os.path.isdir(p)] *)
Definition isdir (p : path) : M bool :=
  fun w => match fs w !! p with
           | Some Dir => (Ret true, w)
           | _ => (Ret false, w)
           end.

(** [Path.read_text(encoding='utf-8')] *)
Definition read_text (p : path) : M text :=
  fun w => match fs w !! p with
           | Some (File f) =>
               match read_fault f with
               | None => (Ret (universal_newlines (content f)), w)
               | Some e => (Raise e, w)
               end
           | Some Dir => (Raise (Exception "IsADirectoryError"), w)
           | Some (Denied e) => (Raise e, w)
           | None => (Raise (Exception "FileNotFoundError"), w)
           end.

Definition set_fs (w : world) (m : gmap path node) : world :=
  {| fs := m; stdout := stdout w; logfile := logfile w; invoked := invoked w |}.

(** [Path.write_text(data, encoding='utf-8')]: the file is overwritten in
    place with the whole text (on POSIX, where [\n] is written as it is); a
    write that fails is one that cannot open the file, and leaves it as it
    was. *)
Definition write_text (p : path) (data : text) : M unit :=
  fun w => match fs w !! p with
           | Some (File f) =>
               match write_fault f with
               | None => (Ret tt, set_fs w (<[p := File (mkFile data (read_fault f) None)]> (fs w)))
               | Some e => (Raise e, w)
               end
           | Some Dir => (Raise (Exception "IsADirectoryError"), w)
           | Some (Denied e) => (Raise e, w)
           | None => (Ret tt, set_fs w (<[p := File (mkFile data None None)]> (fs w)))
           end.

(** *** class SemanticPatcher *)

Record patcher := mkPatcher {
  v8_dir : path;
  log_file : path;
  success_count : nat;
  failure_count : nat
}.

(** [__init__] *)
Definition init (v8_dir log_file : path) : patcher :=
  {| v8_dir := v8_dir; log_file := log_file; success_count := 0; failure_count := 0 |}.

(** [log]: the line goes to standard output and is appended to the log file. *)
Definition log (self : patcher) (m : message) : M unit :=
  fun w => (Ret tt, {| fs := fs w; stdout := stdout w ++ [m];
                       logfile := logfile w ++ [m]; invoked := invoked w |}).

(** [needle in hay] *)
Fixpoint starts_with (needle hay : text) : bool :=
  match needle, hay with
  | [], _ => true
  | a :: n', b :: h' => (a =? b)%N && starts_with n' h'
  | _ :: _, [] => false
  end.

Fixpoint contains (needle hay : text) : bool :=
  starts_with needle hay
  || match hay with
     | [] => false
     | _ :: h' => contains needle h'
     end.

Definition string_cc : path := ["src"; "objects"; "string.cc"].
Definition deserializer_cc : path := ["src"; "snapshot"; "deserializer.cc"].
Definition code_serializer_cc : path := ["src"; "snapshot"; "code-serializer.cc"].

Definition patch_string_cc (self : patcher) : M bool :=
  let file_path := v8_dir self ++ string_cc in
  ex <- path_exists file_path ;;
  if negb ex then
    log self (FileMissing file_path) ;; ret false
  else
    r <- attempt (read_text file_path) ;;
    match r with
    | Raise e => log self (ReadFailed e) ;; ret false
    | Ret content =>
        let pattern := string_cc_pattern in
        match re_search pattern content with
        | None => log self (NotFound "string.cc") ;; ret true
        | Some _ =>
            let new_content := re_sub pattern string_cc_repl content in
            if bool_decide (content = new_content) then
              log self (Unchanged "string.cc") ;; ret true
            else
              catch (write_text file_path new_content ;;
                     log self (Applied "string.cc") ;; ret true)
                    (fun e => log self (WriteFailed e) ;; ret false)
        end
    end.

Definition patch_deserializer_cc (self : patcher) : M bool :=
  let file_path := v8_dir self ++ deserializer_cc in
  ex <- path_exists file_path ;;
  if negb ex then
    log self (FileMissing file_path) ;; ret false
  else
    r <- attempt (read_text file_path) ;;
    match r with
    | Raise e => log self (ReadFailed e) ;; ret false
    | Ret content =>
        let pattern := deserializer_cc_pattern in
        match re_search pattern content with
        | None => log self (NotFound "deserializer.cc") ;; ret true
        | Some _ =>
            let new_content := re_sub pattern deserializer_cc_repl content in
            if bool_decide (content = new_content) then
              log self (Unchanged "deserializer.cc") ;; ret true
            else
              catch (write_text file_path new_content ;;
                     log self (Applied "deserializer.cc") ;; ret true)
                    (fun e => log self (WriteFailed e) ;; ret false)
        end
    end.

Definition patch_code_serializer_cc (self : patcher) : M bool :=
  let file_path := v8_dir self ++ code_serializer_cc in
  ex <- path_exists file_path ;;
  if negb ex then
    log self (FileMissing file_path) ;; ret false
  else
    r <- attempt (read_text file_path) ;;
    match r with
    | Raise e => log self (ReadFailed e) ;; ret false
    | Ret content =>
        let pattern := code_serializer_cc_pattern in
        let replacement := code_serializer_cc_repl in
        match re_search pattern content with
        | None =>
            log self (NotFound "code-serializer.cc") ;;
            if contains (txt "return SerializedCodeSanityCheckResult::kSuccess;") content then
              log self (AlreadyTarget "code-serializer.cc") ;; ret true
            else ret true
        | Some _ =>
            let new_content := re_sub pattern replacement content in
            if bool_decide (content = new_content) then
              log self (Unchanged "code-serializer.cc") ;; ret true
            else
              catch (write_text file_path new_content ;;
                     log self (Applied "code-serializer.cc") ;; ret true)
                    (fun e => log self (WriteFailed e) ;; ret false)
        end
    end.

(** The catalogue of [apply_all]: [patches]. *)
Definition patches (self : patcher) : list (string * M bool) :=
  [ ("string.cc", patch_string_cc self);
    ("deserializer.cc", patch_deserializer_cc self);
    ("code-serializer.cc", patch_code_serializer_cc self) ].

Definition count_success (self : patcher) : patcher :=
  {| v8_dir := v8_dir self; log_file := log_file self;
     success_count := success_count self + 1; failure_count := failure_count self |}.

Definition count_failure (self : patcher) : patcher :=
  {| v8_dir := v8_dir self; log_file := log_file self;
     success_count := success_count self; failure_count := failure_count self + 1 |}.

(** Ghost: note that the function of the entry [name] is being called. *)
Definition note_call (name : string) : M unit :=
  fun w => (Ret tt, {| fs := fs w; stdout := stdout w; logfile := logfile w;
                       invoked := invoked w ++ [name] |}).

(** The body of the [for] loop of [apply_all], for one entry. *)
Definition process (self : patcher) (entry : string * M bool) : M patcher :=
  let '(name, patch_func) := entry in
  log self (Processing name) ;;
  self' <- catch (note_call name ;;
                  ok <- patch_func ;;
                  ret (if ok then count_success self else count_failure self))
                 (fun e => log self (RuleRaised name e) ;;
                           ret (count_failure self)) ;;
  log self' Blank ;;
  ret self'.

(** [for name, patch_func in patches: ...] *)
Fixpoint for_each (entries : list (string * M bool)) (self : patcher) : M patcher :=
  match entries with
  | [] => ret self
  | entry :: rest => self' <- process self entry ;; for_each rest self'
  end.

(** [apply_all]: the value returned and the patcher with its counters. *)
Definition apply_all (self : patcher) : M (bool * patcher) :=
  log self Started ;;
  log self Blank ;;
  self' <- for_each (patches self) self ;;
  log self' (Tally (success_count self') (failure_count self')) ;;
  log self' Blank ;;
  ret (0 <? success_count self', self').

(** [main], from the arguments of the command line ([sys.argv], the two
    operands already as paths) to the exit status of the process. An
    exception that leaves [main] ends the process with status 1. *)
Definition main (argv : list path) (w : world) : nat * world :=
  match argv with
  | _ :: v8_dir :: log_file :: _ =>
      match isdir v8_dir w with
      | (Ret true, w1) =>
          let patcher := init v8_dir log_file in
          match apply_all patcher w1 with
          | (Ret (success, _), w2) => (if success then 0 else 1, w2)
          | (Raise _, w2) => (1, w2)
          end
      | (_, w1) => (1, w1)
      end
  | _ => (1, w)
  end.

(** ** Part 3. Definitions for the statements *)

(** *** The rules and their outcomes, as the specification has them *)

(** A catalogue entry seen as data: the target path under the source root,
    the detection pattern and the rewrite. *)
Record rule := mkRule {
  target : path;
  detect : pattern;
  rewrite : template
}.

Inductive rule_id := string_rule | deserializer_rule | code_serializer_rule.

Definition rule_of (i : rule_id) : rule :=
  match i with
  | string_rule => mkRule string_cc string_cc_pattern string_cc_repl
  | deserializer_rule => mkRule deserializer_cc deserializer_cc_pattern deserializer_cc_repl
  | code_serializer_rule =>
      mkRule code_serializer_cc code_serializer_cc_pattern code_serializer_cc_repl
  end.

Definition name_of (i : rule_id) : string :=
  match i with
  | string_rule => "string.cc"
  | deserializer_rule => "deserializer.cc"
  | code_serializer_rule => "code-serializer.cc"
  end.

(** The executor of a rule: the method of the source that applies it. *)
Definition executor (i : rule_id) : patcher -> M bool :=
  match i with
  | string_rule => patch_string_cc
  | deserializer_rule => patch_deserializer_cc
  | code_serializer_rule => patch_code_serializer_cc
  end.

Definition all_rules : list rule_id :=
  [string_rule; deserializer_rule; code_serializer_rule].

(** The Outcome of the specification (its data model), with the exception
    at hand for the two outcomes that have one. *)
Inductive outcome :=
| file_missing
| pattern_not_found
| no_change
| applied
| io_error (e : exn)
| unexpected_exception (e : exn).

(** The text a rule leaves in a file with text [t] on disk. *)
Definition patched (r : rule) (t : text) : text :=
  re_sub (detect r) (rewrite r) (universal_newlines t).

(** The outcome of applying rule [r] under the source root [v8_dir self] in
    the world [w], following the steps of the specification's Transformation
    Executor: it is read off the world, to be compared with what the
    executors of the source do. *)
Definition spec_outcome (r : rule) (self : patcher) (w : world) : outcome :=
  match fs w !! (v8_dir self ++ target r) with
  | None => file_missing
  | Some (Denied e) => unexpected_exception e
  | Some Dir => io_error (Exception "IsADirectoryError")
  | Some (File f) =>
      match read_fault f with
      | Some e => io_error e
      | None =>
          match re_search (detect r) (universal_newlines (content f)) with
          | None => pattern_not_found
          | Some _ =>
              if bool_decide (universal_newlines (content f) = patched r (content f))
              then no_change
              else match write_fault f with
                   | Some e => io_error e
                   | None => applied
                   end
          end
      end
  end.

(** What an executor hands back for each outcome. *)
Definition verdict (o : outcome) : result bool :=
  match o with
  | pattern_not_found | no_change | applied => Ret true
  | file_missing | io_error _ => Ret false
  | unexpected_exception e => Raise e
  end.

(** How the coordinator's tally counts each outcome. *)
Definition tally (o : outcome) (self : patcher) : patcher :=
  match o with
  | pattern_not_found | no_change | applied => count_success self
  | file_missing | io_error _ | unexpected_exception _ => count_failure self
  end.

Definition succeeded (o : outcome) : bool :=
  match o with
  | pattern_not_found | no_change | applied => true
  | file_missing | io_error _ | unexpected_exception _ => false
  end.

(** The file system after rule [r] has been applied. *)
Definition fs_after (r : rule) (self : patcher) (w : world) : gmap path node :=
  match spec_outcome r self w, fs w !! (v8_dir self ++ target r) with
  | applied, Some (File f) =>
      <[v8_dir self ++ target r := File (mkFile (patched r (content f)) (read_fault f) None)]> (fs w)
  | _, _ => fs w
  end.

(** The patcher after a run of the catalogue, from the outcomes of the
    three rules in the world the run starts in. *)
Definition tallied (self : patcher) (w : world) : patcher :=
  tally (spec_outcome (rule_of code_serializer_rule) self w)
    (tally (spec_outcome (rule_of deserializer_rule) self w)
       (tally (spec_outcome (rule_of string_rule) self w) self)).

(** The number of rules whose outcome the tally classifies as a success. *)
Definition successes (self : patcher) (w : world) : nat :=
  length (List.filter (fun i => succeeded (spec_outcome (rule_of i) self w)) all_rules).

(** *** Sets of characters, offsets of matches *)

Definition all_in (cs : charset) (w : list N) : bool := forallb (mem cs) w.

Definition starts_in (cs : charset) (s : list N) : bool :=
  match s with
  | c :: _ => mem cs c
  | [] => false
  end.

(** Whether the text ends with a character of the set. *)
Definition ends_in (cs : charset) (s : list N) : bool := starts_in cs (rev s).

Definition space_run (w : list N) : Prop := all_in Space w = true.

(** The operations for a literal text. *)
Definition lit_ops (t : list N) : pattern := map (fun c => One (Lit c)) t.

(** Whether the pattern matches at offset [k] of [s]. *)
Definition matches_at (p : pattern) (s : list N) (k : nat) : bool :=
  match run p (fun _ => true) [] k (skipn k s) with
  | Some _ => true
  | None => false
  end.

(** No match of [p] begins at an offset of [s] below [n]. *)
Definition no_match_before (p : pattern) (s : list N) (n : nat) : bool :=
  forallb (fun k => negb (matches_at p s k)) (seq 0 n).

(** The measure that decreases along the loop of [re.sub]. *)
Definition sub_measure (adv : bool) (s : list N) : nat :=
  2 * length s + (if adv then 0 else 1).

(** *** The text that the rules rewrite *)

Definition keyword : list N := txt "kMaxShortPrintLength".

(** The guard block of [string.cc], with white space [a1] ... [a6] between
    its tokens and a body without a closing brace. *)
Definition guard_block (a1 a2 a3 a4 a5 a6 body : list N) : list N :=
  txt "if" ++ a1 ++ txt "(" ++ a2 ++ txt "len" ++ a3 ++ txt ">" ++ a4
  ++ txt "kMaxShortPrintLength" ++ a5 ++ txt ")" ++ a6 ++ txt "{" ++ body ++ txt "}".

(** The text of a match up to the keyword. *)
Definition guard_front (l a1 a2 a3 a4 : list N) : list N :=
  l ++ txt "if" ++ a1 ++ txt "(" ++ a2 ++ txt "len" ++ a3 ++ txt ">" ++ a4.

Definition magic_keyword : list N := txt "SerializedData::kMagicNumber".

(** The assertion of [deserializer.cc], with white space between its tokens,
    up to its closing parenthesis. *)
Definition check_eq (a1 a2 a3 a4 a5 : list N) : list N :=
  txt "CHECK_EQ" ++ a1 ++ txt "(" ++ a2 ++ txt "magic_number_" ++ a3 ++ txt ","
  ++ a4 ++ txt "SerializedData::kMagicNumber" ++ a5 ++ txt ")".

(** The text of a match up to the keyword. *)
Definition check_front (l a1 a2 a3 a4 : list N) : list N :=
  l ++ txt "CHECK_EQ" ++ a1 ++ txt "(" ++ a2 ++ txt "magic_number_" ++ a3 ++ txt "," ++ a4.

(** The signature of [SanityCheck] up to its opening brace: what group 1 of
    the pattern captures. [s1] ... [s4] are white space ([s1] not empty),
    [params] has no closing parenthesis. *)
Definition signature (s1 s2 params s3 s4 : list N) : list N :=
  txt "SerializedCodeSanityCheckResult" ++ s1
  ++ txt "SerializedCodeData::SanityCheck" ++ s2 ++ txt "(" ++ params ++ txt ")"
  ++ s3 ++ txt "const" ++ s4 ++ txt "{".

(** The white space between the tokens of the three statements. *)
Record spacing := mkSpacing {
  b1 : list N; b2 : list N; b3 : list N; b4 : list N; b5 : list N;
  b6 : list N; b7 : list N; b8 : list N; b9 : list N; b10 : list N;
  b11 : list N; b12 : list N; b13 : list N; b14 : list N; b15 : list N
}.

Definition spacing_ok (b : spacing) : Prop :=
  space_run (b1 b) /\ b1 b <> [] /\ space_run (b2 b) /\ space_run (b3 b)
  /\ space_run (b4 b) /\ space_run (b5 b) /\ space_run (b6 b) /\ space_run (b7 b)
  /\ space_run (b8 b) /\ space_run (b9 b) /\ space_run (b10 b) /\ b10 b <> []
  /\ space_run (b11 b) /\ space_run (b12 b) /\ space_run (b13 b) /\ b13 b <> []
  /\ space_run (b14 b) /\ space_run (b15 b).

(** The three statements of the body: the result of
    [SanityCheckWithoutSource()], the early return under a condition [cond],
    the return of [SanityCheckJustSource(args)]. *)
Definition statements (b : spacing) (cond args : list N) : list N :=
  txt "SerializedCodeSanityCheckResult" ++ b1 b ++ txt "result" ++ b2 b ++ txt "="
  ++ b3 b ++ txt "SanityCheckWithoutSource" ++ b4 b ++ txt "(" ++ b5 b ++ txt ")"
  ++ b6 b ++ txt ";" ++ b7 b
  ++ txt "if" ++ b8 b ++ txt "(" ++ cond ++ txt ")" ++ b9 b ++ txt "return"
  ++ b10 b ++ txt "result" ++ b11 b ++ txt ";" ++ b12 b
  ++ txt "return" ++ b13 b ++ txt "SanityCheckJustSource" ++ b14 b ++ txt "("
  ++ args ++ txt ")" ++ b15 b ++ txt ";".

Definition success_return : list N :=
  LF :: txt "  return SerializedCodeSanityCheckResult::kSuccess;".

(** *** Concrete files and worlds *)

(** The world with no file at all. *)
Definition empty_world : world := mkWorld ∅ [] [] [].

Definition sanity_check_source : list N :=
  txt "SerializedCodeSanityCheckResult SerializedCodeData::SanityCheck(" ++ [LF]
  ++ txt "    uint32_t expected_source_hash) const {" ++ [LF]
  ++ txt "  SerializedCodeSanityCheckResult result = SanityCheckWithoutSource();" ++ [LF]
  ++ txt "  if (result != SerializedCodeSanityCheckResult::kSuccess) return result;" ++ [LF]
  ++ txt "  return SanityCheckJustSource(expected_source_hash);" ++ [LF]
  ++ txt "}" ++ [LF].

(** A source tree in which [string.cc] and [deserializer.cc] hold nothing
    to patch and [code-serializer.cc] holds the original function. *)
Definition demo_world : world :=
  mkWorld
    (<[ ["v8"] := Dir ]>
       (<[ ["v8"; "src"; "objects"; "string.cc"]
           := File (mkFile (txt "int len = 0;") None None) ]>
          (<[ ["v8"; "src"; "snapshot"; "deserializer.cc"]
              := File (mkFile (txt "int magic_number_;") None None) ]>
             (<[ ["v8"; "src"; "snapshot"; "code-serializer.cc"]
                 := File (mkFile sanity_check_source None None) ]> ∅))))
    [] [] [].


Definition guard_source : list N :=
  txt "  Add(x);"
  ++ ([LF] ++ txt "  ")
  ++ guard_block (txt " ") [] (txt " ") (txt " ") [] (txt " ")
       ([LF] ++ txt "    accumulator->Put('>');" ++ [LF] ++ txt "    return;"
        ++ [LF] ++ txt "  ")
  ++ ([LF] ++ txt "  ")
  ++ txt "Print();" ++ [LF].

Definition check_source : list N :=
  txt "  int a;"
  ++ ([LF] ++ txt "  ")
  ++ check_eq [] [] [] (txt " ") []
  ++ [] ++ txt ";" ++ ([LF] ++ txt "  ")
  ++ txt "int b;" ++ [LF].

Definition demo_spacing : spacing :=
  mkSpacing (txt " ") (txt " ") (txt " ") [] [] [] ([LF] ++ txt "  ")
    (txt " ") (txt " ") (txt " ") [] ([LF] ++ txt "  ") (txt " ") [] [].

Definition sanity_source : list N :=
  (txt "// check" ++ [LF])
  ++ signature (txt " ") [] ([LF] ++ txt "    uint32_t expected_source_hash")
       (txt " ") (txt " ")
  ++ ([LF] ++ txt "  ")
  ++ statements demo_spacing (txt "result != SerializedCodeSanityCheckResult::kSuccess")
       (txt "expected_source_hash")
  ++ [LF] ++ txt "}" ++ [LF].

(** A source tree with the three files in their original form. *)
Definition original_world : world :=
  mkWorld
    (<[ ["v8"] := Dir ]>
       (<[ ["v8"; "src"; "objects"; "string.cc"] := File (mkFile guard_source None None) ]>
          (<[ ["v8"; "src"; "snapshot"; "deserializer.cc"]
              := File (mkFile check_source None None) ]>
             (<[ ["v8"; "src"; "snapshot"; "code-serializer.cc"]
                 := File (mkFile sanity_source None None) ]> ∅))))
    [] [] [].




(** *** The lines of the log *)

(** The lines that the executor of rule [i] hands to [log] under the source
    root [v8_dir self] in the world [w], read off the branches of the
    executor. An executor that raises has logged nothing. *)
Definition report (i : rule_id) (self : patcher) (w : world) : list message :=
  let file_path := v8_dir self ++ target (rule_of i) in
  match fs w !! file_path with
  | None => [FileMissing file_path]
  | Some (Denied _) => []
  | Some Dir => [ReadFailed (Exception "IsADirectoryError")]
  | Some (File f) =>
      match read_fault f with
      | Some e => [ReadFailed e]
      | None =>
          let content := universal_newlines (content f) in
          match re_search (detect (rule_of i)) content with
          | None =>
              NotFound (name_of i)
              :: match i with
                 | code_serializer_rule =>
                     if contains (txt "return SerializedCodeSanityCheckResult::kSuccess;")
                          content
                     then [AlreadyTarget (name_of i)] else []
                 | _ => []
                 end
          | Some _ =>
              if bool_decide (content = re_sub (detect (rule_of i)) (rewrite (rule_of i)) content)
              then [Unchanged (name_of i)]
              else match write_fault f with
                   | Some e => [WriteFailed e]
                   | None => [Applied (name_of i)]
                   end
          end
      end
  end.

(** The lines that one round of the loop of [apply_all] adds to the log for
    rule [i]: the heading, the lines of the executor, the line for an
    exception that the loop has caught, and an empty line. *)
Definition block (i : rule_id) (self : patcher) (w : world) : list message :=
  Processing (name_of i)
  :: report i self w
  ++ match spec_outcome (rule_of i) self w with
     | unexpected_exception e => [RuleRaised (name_of i) e]
     | _ => []
     end
  ++ [Blank].

(** The lines that a run of [apply_all] adds to the log. *)
Definition run_log (self : patcher) (w : world) : list message :=
  [Started; Blank]
  ++ block string_rule self w ++ block deserializer_rule self w
  ++ block code_serializer_rule self w
  ++ [Tally (success_count (tallied self w)) (failure_count (tallied self w)); Blank].

(** *** Lengths, markers and line ends *)

(** The least number of characters that a match of the pattern takes: one
    for each item that is matched once or at least once. *)
Fixpoint min_len (p : pattern) : nat :=
  match p with
  | [] => 0
  | One _ :: p' => S (min_len p')
  | Plus _ :: p' => S (min_len p')
  | _ :: p' => min_len p'
  end.

(** Whether the literal text of a replacement template is made of
    characters of the set. *)
Definition template_in (cs : charset) (repl : template) : bool :=
  forallb (fun t => match t with TLit x => all_in cs x | TGroup _ => true end) repl.

(** An identifier that every match of the rule's pattern contains. *)
Definition marker (i : rule_id) : list N :=
  match i with
  | string_rule => keyword
  | deserializer_rule => magic_keyword
  | code_serializer_rule => txt "SanityCheckWithoutSource"
  end.

(** The guard of [string.cc] in a file with DOS line ends. *)
Definition crlf_source : list N :=
  txt "  Add(x);" ++ [CR; LF]
  ++ txt "  if (len > kMaxShortPrintLength) {" ++ [CR; LF]
  ++ txt "    return;" ++ [CR; LF]
  ++ txt "  }" ++ [CR; LF]
  ++ txt "  Print();" ++ [CR; LF].

Definition crlf_world : world :=
  mkWorld
    (<[ ["v8"; "src"; "objects"; "string.cc"] := File (mkFile crlf_source None None) ]> ∅)
    [] [] [].

(** ** Part 4. Lemmas and theorems *)

(** *** The executors against the outcomes *)

Ltac exec_unfold :=
  cbv beta iota zeta delta
    [patch_string_cc patch_deserializer_cc patch_code_serializer_cc
     executor rule_of spec_outcome verdict fs_after patched
     bind ret raise catch attempt path_exists read_text write_text log set_fs
     target detect rewrite fst snd negb];
  cbn [fs stdout logfile invoked].

(** Case analysis along the path an executor takes: the node at the target,
    then the faults, the search and the comparison, each rewritten into the
    executor as its steps unfold. *)
Ltac exec_destruct t :=
  let E := fresh "E" in
  destruct t eqn:E; simplify_eq; repeat (rewrite ?E; exec_unfold).

Ltac exec_cases :=
  exec_unfold;
  repeat match goal with
         | |- context [match ?m !! ?p with _ => _ end] =>
             is_var m; exec_destruct (m !! p)
         | |- context [match ?n with File _ => _ | Dir => _ | Denied _ => _ end] =>
             is_var n; destruct n; exec_unfold
         | |- context [read_fault ?f] => is_var f; exec_destruct (read_fault f)
         | |- context [re_search ?p (universal_newlines (content ?f))] =>
             is_var f; exec_destruct (re_search p (universal_newlines (content f)))
         | |- context [bool_decide ?P] => exec_destruct (bool_decide P)
         | |- context [write_fault ?f] => is_var f; exec_destruct (write_fault f)
         | |- context [contains ?a ?b] => exec_destruct (contains a b)
         end.

Lemma executor_result i self w :
  fst (executor i self w) = verdict (spec_outcome (rule_of i) self w).
Proof. destruct w, i; exec_cases; congruence. Qed.

Lemma executor_fs i self w :
  fs (snd (executor i self w)) = fs_after (rule_of i) self w.
Proof. destruct w, i; exec_cases; congruence. Qed.

Lemma executor_invoked i self w :
  invoked (snd (executor i self w)) = invoked w.
Proof. destruct w, i; exec_cases; congruence. Qed.

(** The outcome of a rule is read off the file system alone. *)
Lemma spec_outcome_fs r self w1 w2 :
  fs w1 = fs w2 -> spec_outcome r self w1 = spec_outcome r self w2.
Proof. unfold spec_outcome. intros ->. reflexivity. Qed.

(** ... and, in it, off the node at the rule's target alone. *)
Lemma spec_outcome_target r self w1 w2 :
  fs w1 !! (v8_dir self ++ target r) = fs w2 !! (v8_dir self ++ target r) ->
  spec_outcome r self w1 = spec_outcome r self w2.
Proof. unfold spec_outcome. intros ->. reflexivity. Qed.

Lemma fs_after_other r self w p :
  p <> v8_dir self ++ target r -> fs_after r self w !! p = fs w !! p.
Proof.
  intros Hp. unfold fs_after.
  destruct (spec_outcome r self w); try reflexivity.
  destruct (fs w !! (v8_dir self ++ target r)) as [[f| |e]|]; try reflexivity.
  apply lookup_insert_ne. congruence.
Qed.

Lemma fs_after_not_applied r self w :
  spec_outcome r self w <> applied -> fs_after r self w = fs w.
Proof.
  intros Ho. unfold fs_after.
  destruct (spec_outcome r self w); try reflexivity. congruence.
Qed.

Lemma targets_distinct i j (d : list string) :
  i <> j -> d ++ target (rule_of i) <> d ++ target (rule_of j).
Proof.
  intros Hij Heq. apply app_inv_head in Heq.
  destruct i, j; try congruence; discriminate Heq.
Qed.


(** When the target holds a text that the pattern matches and the rewrite
    changes, and nothing fails, the executor returns [True] and the target
    holds the rewritten text; nothing else changes. *)
Lemma executor_applies i self w f new :
  fs w !! (v8_dir self ++ target (rule_of i)) = Some (File f) ->
  read_fault f = None -> write_fault f = None ->
  re_search (detect (rule_of i)) (universal_newlines (content f)) <> None ->
  re_sub (detect (rule_of i)) (rewrite (rule_of i)) (universal_newlines (content f)) = new ->
  new <> universal_newlines (content f) ->
  spec_outcome (rule_of i) self w = applied
  /\ fst (executor i self w) = Ret true
  /\ fs (snd (executor i self w))
     = <[v8_dir self ++ target (rule_of i) := File (mkFile new None None)]> (fs w).
Proof.
  intros Hf Hr Hw Hs Hnew Hne.
  assert (Ho : spec_outcome (rule_of i) self w = applied).
  { unfold spec_outcome. rewrite Hf, Hr, Hw.
    destruct (re_search _ _); [|congruence].
    unfold patched. rewrite Hnew. rewrite bool_decide_eq_false_2; [reflexivity|congruence]. }
  split; [exact Ho|].
  rewrite executor_result, executor_fs. unfold fs_after, patched.
  rewrite Ho, Hf, Hnew, Hr. split; reflexivity.
Qed.

(** *** Every combination of results arises *)





(** *** The coordinator *)

(** One round of the loop, for an arbitrary function: whatever the function
    returns or raises, the round ends normally, exactly one counter has gone
    up by one, and the function has been called once. *)
Lemma process_any self name (f : M bool) w :
  (forall w0, invoked (snd (f w0)) = invoked w0) ->
  exists self' w',
    process self (name, f) w = (Ret self', w')
    /\ self' = match fst (f (snd (note_call name (snd (log self (Processing name) w))))) with
               | Ret true => count_success self
               | _ => count_failure self
               end
    /\ fs w' = fs (snd (f (snd (note_call name (snd (log self (Processing name) w))))))
    /\ invoked w' = invoked w ++ [name].
Proof.
  intros Hinv. unfold process, bind, catch.
  cbn [log note_call snd fst].
  match goal with |- context [f ?w0] => set (w1 := w0) end.
  specialize (Hinv w1).
  destruct (f w1) as [[[|]|e] w2] eqn:Ef; cbn [fst snd] in *;
    unfold ret, log; cbn [fs invoked]; eauto 10.
Qed.

Lemma process_rule i self0 self w :
  exists w',
    process self (name_of i, executor i self0) w
      = (Ret (if succeeded (spec_outcome (rule_of i) self0 w)
              then count_success self else count_failure self), w')
    /\ fs w' = fs_after (rule_of i) self0 w
    /\ invoked w' = invoked w ++ [name_of i].
Proof.
  destruct (process_any self (name_of i) (executor i self0) w)
    as (self' & w' & Hp & Hs & Hfs & Hin).
  { intros w0. apply executor_invoked. }
  exists w'. rewrite Hp, Hs. clear Hp Hs.
  set (w1 := snd (note_call _ _)) in *.
  assert (Hw1 : fs w1 = fs w) by reflexivity.
  rewrite executor_result, executor_fs in *.
  rewrite (spec_outcome_fs _ _ _ _ Hw1).
  split; [|split; [|exact Hin]].
  - destruct (spec_outcome (rule_of i) self0 w); reflexivity.
  - rewrite Hfs. unfold fs_after. rewrite (spec_outcome_fs _ _ _ _ Hw1), Hw1. reflexivity.
Qed.

(** The loop over an arbitrary list of entries never stops early. *)
Lemma for_each_any entries : forall self w,
  (forall name f w0, In (name, f) entries -> invoked (snd (f w0)) = invoked w0) ->
  exists self' w',
    for_each entries self w = (Ret self', w')
    /\ success_count self' + failure_count self'
       = success_count self + failure_count self + length entries
    /\ invoked w' = invoked w ++ map fst entries.
Proof.
  induction entries as [|[name f] rest IH]; intros self w Hinv.
  - exists self, w. cbn. rewrite app_nil_r. split; [reflexivity|split; [lia|reflexivity]].
  - destruct (process_any self name f w) as (self1 & w1 & Hp & Hs & _ & Hin).
    { intros w0. eapply Hinv. left. reflexivity. }
    destruct (IH self1 w1) as (self2 & w2 & Hl & Hc & Hin2).
    { intros n g w0 Hg. eapply Hinv. right. exact Hg. }
    exists self2, w2. cbn [for_each]. unfold bind at 1. rewrite Hp, Hl.
    split; [reflexivity|]. split.
    + rewrite Hc, Hs. cbn [length].
      destruct (fst _) as [[|]|]; cbn; lia.
    + rewrite Hin2, Hin. cbn [map fst]. rewrite <- app_assoc. reflexivity.
Qed.

Lemma tally_succeeded o self :
  tally o self = if succeeded o then count_success self else count_failure self.
Proof. destruct o; reflexivity. Qed.


Lemma tallied_counts self w :
  success_count (tallied self w) = success_count self + successes self w
  /\ failure_count (tallied self w) = failure_count self + (3 - successes self w).
Proof.
  unfold tallied, successes, all_rules. rewrite !tally_succeeded.
  cbn [List.filter].
  destruct (succeeded (spec_outcome (rule_of string_rule) self w)),
           (succeeded (spec_outcome (rule_of deserializer_rule) self w)),
           (succeeded (spec_outcome (rule_of code_serializer_rule) self w));
    cbn; lia.
Qed.

(** *** Claims on the coordinator and on the outcomes *)




(** C3, as stated, fails: with no [string.cc] under the source root the
    outcome is file-missing, and the executor returns [False], which the
    coordinator counts as a failure. *)
Lemma file_missing_counts_as_failure :
  spec_outcome (rule_of string_rule) (init ["v8"] ["log"]) empty_world = file_missing
  /\ fst (patch_string_cc (init ["v8"] ["log"]) empty_world) = Ret false
  /\ fst (process (init ["v8"] ["log"])
            ("string.cc", patch_string_cc (init ["v8"] ["log"])) empty_world)
     = Ret (mkPatcher ["v8"] ["log"] 0 1).
Proof. repeat split; vm_compute; reflexivity. Qed.

(** C3, amended. For every rule application, the file-missing, io-error and
    exception outcomes are failures of the per-rule result (the executor
    returns [False], or raises and the coordinator counts a failure); the
    other outcomes, pattern-not-found, no-change and applied, are successes
    (the executor returns [True]). *)
Theorem per_rule_result (i : rule_id) (self : patcher) (w : world) :
  fst (executor i self w)
  = match spec_outcome (rule_of i) self w with
    | file_missing => Ret false
    | io_error _ => Ret false
    | unexpected_exception e => Raise e
    | pattern_not_found => Ret true
    | no_change => Ret true
    | applied => Ret true
    end
  /\ fst (process self (name_of i, executor i self) w)
     = Ret (if succeeded (spec_outcome (rule_of i) self w)
            then count_success self else count_failure self).
Proof.
  split.
  - rewrite executor_result. destruct (spec_outcome (rule_of i) self w); reflexivity.
  - destruct (process_rule i self self w) as (w' & Hp & _). rewrite Hp. reflexivity.
Qed.





(** *** The engine: bounds, and [re.sub] as an equation *)

(** A successful greedy repeat has taken a run [w] of characters of [cs] and
    the continuation has succeeded on the rest. *)
Lemma greedy_inv {A} cs (k : nat -> list N -> option A) : forall s i r,
  greedy cs k i s = Some r ->
  exists w s', s = w ++ s' /\ all_in cs w = true /\ k (i + length w) s' = Some r.
Proof.
  induction s as [|c s IH]; intros i r H; cbn [greedy] in H.
  - exists [], []. cbn. rewrite Nat.add_0_r. auto.
  - destruct (mem cs c) eqn:Hc.
    + destruct (greedy cs k (S i) s) as [r'|] eqn:Hg.
      * inversion H; subst r'. destruct (IH _ _ Hg) as (w & s' & -> & Hw & Hk).
        exists (c :: w), s'. unfold all_in in *. cbn [app forallb length].
        rewrite Hc, Hw.
        replace (i + S (length w)) with (S i + length w) by lia. auto.
      * exists [], (c :: s). cbn. rewrite Nat.add_0_r. auto.
    + exists [], (c :: s). cbn. rewrite Nat.add_0_r. auto.
Qed.

Lemma run_bounds p acc : forall ms i s e ms',
  run p acc ms i s = Some (e, ms') ->
  i <= e /\ e <= i + length s /\ acc e = true.
Proof.
  induction p as [|o p IH]; intros ms i s e ms' H; cbn [run] in H.
  - destruct (acc i) eqn:Ha; inversion H; subst. repeat split; [lia|lia|exact Ha].
  - destruct o as [cs|cs|cs|cs|k].
    + destruct s as [|c s]; [discriminate|]. destruct (mem cs c); [|discriminate].
      apply IH in H. cbn [length]. intuition lia.
    + apply greedy_inv in H. destruct H as (w & s' & -> & _ & H).
      apply IH in H. rewrite length_app. intuition lia.
    + destruct s as [|c s]; [discriminate|]. destruct (mem cs c); [|discriminate].
      apply greedy_inv in H. destruct H as (w & s' & -> & _ & H).
      apply IH in H. cbn [length]. rewrite length_app. intuition lia.
    + destruct s as [|c s]; [apply IH in H; exact H|].
      destruct (mem cs c).
      * destruct (run p acc ms (S i) s) as [[e1 m1]|] eqn:H1.
        -- inversion H; subst. apply IH in H1. cbn [length]. intuition lia.
        -- apply IH in H. exact H.
      * apply IH in H. exact H.
    + apply IH in H. exact H.
Qed.

Lemma scan_bounds p : forall s adv i b e ms,
  scan p adv i s = Some (b, e, ms) ->
  i <= b /\ b <= e /\ e <= i + length s /\ (adv = true -> b = i -> e <> i).
Proof.
  induction s as [|c s IH]; intros adv i b e ms H; cbn [scan] in H.
  - destruct (run p _ [] i []) as [[e1 m1]|] eqn:Hr; [|discriminate].
    inversion H; subst. apply run_bounds in Hr. destruct Hr as (H1 & H2 & H3).
    repeat split; try lia. intros -> _ ->. rewrite Nat.eqb_refl in H3. discriminate.
  - destruct (run p _ [] i (c :: s)) as [[e1 m1]|] eqn:Hr.
    + inversion H; subst. apply run_bounds in Hr. destruct Hr as (H1 & H2 & H3).
      repeat split; try lia. intros -> _ ->. rewrite Nat.eqb_refl in H3. discriminate.
    + apply IH in H. cbn [length]. intuition lia.
Qed.

Lemma sub_loop_total p repl : forall fuel adv s,
  sub_measure adv s < fuel -> exists t, sub_loop fuel p repl adv s = Some t.
Proof.
  induction fuel as [|fuel IH]; intros adv s Hm; [lia|].
  cbn [sub_loop]. destruct (scan p adv 0 s) as [[[b e] ms]|] eqn:Hs; [|eauto].
  apply scan_bounds in Hs. destruct Hs as (_ & Hbe & He & Hadv). cbn in He.
  destruct (IH (Nat.eqb e b) (skipn e s)) as [t Ht].
  - unfold sub_measure in *. rewrite length_skipn.
    destruct (Nat.eqb e b) eqn:Heb.
    + apply Nat.eqb_eq in Heb. subst e. destruct adv.
      * assert (b <> 0) by (intros ->; apply Hadv; reflexivity). lia.
      * lia.
    + apply Nat.eqb_neq in Heb. lia.
  - rewrite Ht. eauto.
Qed.

Lemma sub_loop_more_fuel p repl : forall fuel fuel' adv s t,
  sub_loop fuel p repl adv s = Some t -> fuel <= fuel' ->
  sub_loop fuel' p repl adv s = Some t.
Proof.
  induction fuel as [|fuel IH]; intros fuel' adv s t H Hle; [discriminate|].
  destruct fuel' as [|fuel']; [lia|]. cbn [sub_loop] in *.
  destruct (scan p adv 0 s) as [[[b e] ms]|]; [|exact H].
  destruct (sub_loop fuel p repl (Nat.eqb e b) (skipn e s)) as [t'|] eqn:Hrec;
    [|discriminate].
  rewrite (IH fuel' _ _ _ Hrec) by lia. exact H.
Qed.

Lemma sub_loop_S fuel p repl adv s :
  sub_loop (S fuel) p repl adv s
  = match scan p adv 0 s with
    | None => Some s
    | Some (b, e, ms) =>
        match sub_loop fuel p repl (Nat.eqb e b) (skipn e s) with
        | Some t => Some (firstn b s ++ expand repl s ms ++ t)
        | None => None
        end
    end.
Proof. reflexivity. Qed.

(** [re.sub] always has fuel enough: its result is the result of the loop. *)
Lemma re_sub_loop p repl s :
  sub_loop (sub_fuel s) p repl false s = Some (re_sub p repl s).
Proof.
  unfold re_sub.
  destruct (sub_loop_total p repl (sub_fuel s) false s) as [t Ht].
  - unfold sub_measure, sub_fuel. lia.
  - rewrite Ht. reflexivity.
Qed.

Lemma re_sub_none p repl s : re_search p s = None -> re_sub p repl s = s.
Proof.
  intros H. pose proof (re_sub_loop p repl s) as Hl.
  unfold sub_fuel in Hl. rewrite Nat.add_comm in Hl. cbn [Nat.add sub_loop] in Hl.
  unfold re_search in H. rewrite H in Hl. congruence.
Qed.

(** One round of [re.sub] on a match that is not empty. *)
Lemma re_sub_step p repl s b e ms :
  re_search p s = Some (b, e, ms) -> b < e ->
  re_sub p repl s = firstn b s ++ expand repl s ms ++ re_sub p repl (skipn e s).
Proof.
  intros H Hbe. pose proof (re_sub_loop p repl s) as Hl.
  unfold sub_fuel in Hl.
  replace (2 * length s + 2) with (S (S (2 * length s))) in Hl by lia.
  rewrite sub_loop_S in Hl.
  unfold re_search in H. rewrite H in Hl.
  replace (Nat.eqb e b) with false in Hl by (symmetry; apply Nat.eqb_neq; lia).
  destruct (sub_loop _ p repl false (skipn e s)) as [t|] eqn:Hrec; [|discriminate].
  pose proof (re_sub_loop p repl (skipn e s)) as Hl2.
  assert (Hmax : sub_loop (S (S (2 * length s)) + sub_fuel (skipn e s)) p repl false
                   (skipn e s) = Some t)
    by (eapply sub_loop_more_fuel; [exact Hrec|lia]).
  assert (Hmax2 : sub_loop (S (S (2 * length s)) + sub_fuel (skipn e s)) p repl false
                    (skipn e s) = Some (re_sub p repl (skipn e s)))
    by (eapply sub_loop_more_fuel; [exact Hl2|lia]).
  congruence.
Qed.

(** Empty matches are replaced too, also next to a match that is not
    empty. *)
Example re_sub_empty_matches :
  re_sub [Star (Lit (chr "x"))] [TLit (txt "-")] (txt "abxd") = txt "-a-b--d-".
Proof. vm_compute. reflexivity. Qed.

Example re_sub_white_space :
  re_sub [Star Space] [TLit (txt "-")] (txt "ab c") = txt "-a-b--c-".
Proof. vm_compute. reflexivity. Qed.

Example universal_newlines_example :
  universal_newlines (txt "a" ++ [CR; LF] ++ txt "b" ++ [CR] ++ txt "c" ++ [LF])
  = txt "a" ++ [LF] ++ txt "b" ++ [LF] ++ txt "c" ++ [LF].
Proof. vm_compute. reflexivity. Qed.

(** *** The engine on text of a known shape *)

Lemma lits_lit_ops s : lits s = lit_ops (txt s).
Proof. reflexivity. Qed.

Lemma run_lit_ops t p acc ms : forall i s,
  run (lit_ops t ++ p) acc ms i (t ++ s) = run p acc ms (i + length t) s.
Proof.
  induction t as [|c t IH]; intros i s; cbn [lit_ops map app run length].
  - rewrite Nat.add_0_r. reflexivity.
  - cbn [mem]. rewrite N.eqb_refl. fold (lit_ops t). rewrite IH.
    f_equal. lia.
Qed.

(** A literal that does not start the text: no match. *)
Lemma run_lit_ops_mismatch c t p acc ms i s :
  starts_in (Lit c) s = false -> run (lit_ops (c :: t) ++ p) acc ms i s = None.
Proof.
  intros H. cbn [lit_ops map app run]. destruct s as [|d s]; [reflexivity|].
  cbn [starts_in] in H. rewrite H. reflexivity.
Qed.

(** A greedy repeat followed by a literal outside its set is deterministic:
    it takes the whole run [w] of characters of the set. *)
Lemma greedy_then_lit cs c p acc ms s : forall w i,
  all_in cs w = true -> mem cs c = false -> starts_in cs s = false ->
  greedy cs (run (One (Lit c) :: p) acc ms) i (w ++ s)
  = run (One (Lit c) :: p) acc ms (i + length w) s.
Proof.
  induction w as [|x w IH]; intros i Hw Hc Hs.
  - cbn [app length]. rewrite Nat.add_0_r.
    destruct s as [|d s]; [reflexivity|]. cbn [greedy]. cbn [starts_in] in Hs.
    rewrite Hs. reflexivity.
  - unfold all_in in Hw. cbn [forallb] in Hw. apply andb_true_iff in Hw as [Hx Hw].
    cbn [app greedy length]. rewrite Hx. rewrite (IH (S i) Hw Hc Hs).
    replace (S i + length w) with (i + S (length w)) by lia.
    destruct (run (One (Lit c) :: p) acc ms (i + S (length w)) s); [reflexivity|].
    cbn [run mem]. destruct (N.eqb_spec x c) as [->|_]; [congruence|reflexivity].
Qed.

Lemma run_Star cs p acc ms i s :
  run (Star cs :: p) acc ms i s = greedy cs (run p acc ms) i s.
Proof. reflexivity. Qed.

Lemma run_Plus cs p acc ms i c s :
  run (Plus cs :: p) acc ms i (c :: s)
  = if mem cs c then greedy cs (run p acc ms) (S i) s else None.
Proof. reflexivity. Qed.

Lemma run_One cs p acc ms i c s :
  run (One cs :: p) acc ms i (c :: s)
  = if mem cs c then run p acc ms (S i) s else None.
Proof. reflexivity. Qed.

Lemma run_Mark k p acc ms i s :
  run (Mark k :: p) acc ms i s = run p acc ((k, i) :: ms) i s.
Proof. reflexivity. Qed.

Lemma run_star_lits cs t p acc ms w i s :
  all_in cs w = true -> t <> [] -> starts_in cs (t ++ s) = false ->
  run (Star cs :: lit_ops t ++ p) acc ms i (w ++ t ++ s)
  = run p acc ms (i + length w + length t) s.
Proof.
  intros Hw Ht Hs. destruct t as [|c t]; [congruence|].
  cbn [lit_ops map app] in *. cbn [starts_in] in Hs.
  rewrite run_Star.
  rewrite greedy_then_lit by (assumption || (cbn [starts_in]; assumption)).
  rewrite run_One. cbn [mem]. rewrite N.eqb_refl. fold (lit_ops t). rewrite run_lit_ops.
  f_equal. cbn [length]. lia.
Qed.



(** A greedy repeat whose continuation succeeds after the whole run. *)
Lemma greedy_whole {A} cs (k : nat -> list N -> option A) s r : forall w i,
  all_in cs w = true -> starts_in cs s = false ->
  k (i + length w) s = Some r -> greedy cs k i (w ++ s) = Some r.
Proof.
  induction w as [|x w IH]; intros i Hw Hs Hk.
  - cbn [app length] in *. rewrite Nat.add_0_r in Hk.
    destruct s as [|d s]; [exact Hk|]. cbn [greedy]. cbn [starts_in] in Hs.
    rewrite Hs. exact Hk.
  - unfold all_in in Hw. cbn [forallb] in Hw. apply andb_true_iff in Hw as [Hx Hw].
    cbn [app greedy length] in *. rewrite Hx. rewrite (IH (S i) Hw Hs); [reflexivity|].
    replace (S i + length w) with (i + S (length w)) by lia. exact Hk.
Qed.


Lemma run_opt_newline_end ms j post :
  starts_in Space post = false ->
  run [Opt (Lit LF)] (fun _ => true) ms j post = Some (j, ms).
Proof.
  intros H. destruct post as [|c post]; [reflexivity|].
  cbn [run mem]. cbn [starts_in mem] in H.
  destruct (N.eqb_spec c LF) as [->|_]; [discriminate H|reflexivity].
Qed.


Ltac side_conditions :=
  first [ assumption | discriminate | reflexivity ].

(** *** What a match is made of *)

Lemma run_lit_ops_inv t p acc ms : forall i s r,
  run (lit_ops t ++ p) acc ms i s = Some r ->
  exists s', s = t ++ s' /\ run p acc ms (i + length t) s' = Some r.
Proof.
  induction t as [|c t IH]; intros i s r H.
  - exists s. cbn [app length lit_ops map] in *. rewrite Nat.add_0_r. auto.
  - cbn [lit_ops map app] in H. destruct s as [|d s]; [discriminate H|].
    rewrite run_One in H. cbn [mem] in H.
    destruct (N.eqb_spec d c) as [->|_]; [|discriminate H].
    fold (lit_ops t) in H. apply IH in H. destruct H as (s' & -> & H).
    exists s'. split; [reflexivity|]. cbn [length].
    replace (i + S (length t)) with (S i + length t) by lia. exact H.
Qed.

Lemma run_star_inv cs p acc ms i s r :
  run (Star cs :: p) acc ms i s = Some r ->
  exists w s', s = w ++ s' /\ all_in cs w = true
               /\ run p acc ms (i + length w) s' = Some r.
Proof. rewrite run_Star. apply greedy_inv. Qed.

(** *** Leftmost search *)

Lemma no_match_before_spec p s n k :
  no_match_before p s n = true -> k < n ->
  run p (fun _ => true) [] k (skipn k s) = None.
Proof.
  unfold no_match_before. rewrite forallb_forall. intros H Hk.
  specialize (H k). rewrite in_seq in H. specialize (H ltac:(lia)).
  unfold matches_at in H. destruct (run p _ [] k (skipn k s)); [discriminate|reflexivity].
Qed.

Lemma scan_skip p : forall pre i rest,
  (forall k, k < length pre ->
     run p (fun _ => true) [] (i + k) (skipn k (pre ++ rest)) = None) ->
  scan p false i (pre ++ rest) = scan p false (i + length pre) rest.
Proof.
  induction pre as [|c pre IH]; intros i rest H.
  - cbn [app length]. rewrite Nat.add_0_r. reflexivity.
  - cbn [app scan length].
    change (fun e : nat => negb (false && Nat.eqb e i)) with (fun _ : nat => true).
    pose proof (H 0 ltac:(cbn; lia)) as H0. cbn [skipn app] in H0.
    rewrite Nat.add_0_r in H0. rewrite H0.
    rewrite (IH (S i) rest); [f_equal; lia|].
    intros k Hk. specialize (H (S k) ltac:(cbn; lia)). cbn [skipn app] in H.
    replace (S i + k) with (i + S k) by lia. exact H.
Qed.

(** The search finds the match that begins where no earlier one does. *)
Lemma re_search_at p pre rest e ms :
  no_match_before p (pre ++ rest) (length pre) = true ->
  run p (fun _ => true) [] (length pre) rest = Some (e, ms) ->
  re_search p (pre ++ rest) = Some (length pre, e, ms).
Proof.
  intros Hno Hrun. unfold re_search. rewrite scan_skip.
  - cbn [Nat.add]. destruct rest as [|c rest]; cbn [scan];
      change (fun e : nat => negb (false && Nat.eqb e (length pre)))
        with (fun _ : nat => true); rewrite Hrun; reflexivity.
  - intros k Hk. cbn [Nat.add]. eapply no_match_before_spec; eassumption.
Qed.

(** A match found by the search is a match of the pattern at its offset. *)
Lemma scan_inv p : forall s adv i b e ms,
  scan p adv i s = Some (b, e, ms) ->
  exists k acc, b = i + k /\ k <= length s
                /\ run p acc [] b (skipn k s) = Some (e, ms).
Proof.
  induction s as [|c s IH]; intros adv i b e ms H; cbn [scan] in H.
  - destruct (run p _ [] i []) as [[e1 m1]|] eqn:Hr; [|discriminate].
    inversion H; subst. exists 0, (fun e0 => negb (adv && Nat.eqb e0 b)).
    rewrite Nat.add_0_r. cbn [skipn length]. auto.
  - destruct (run p _ [] i (c :: s)) as [[e1 m1]|] eqn:Hr.
    + inversion H; subst. exists 0, (fun e0 => negb (adv && Nat.eqb e0 b)).
      rewrite Nat.add_0_r. cbn [skipn length]. split; [reflexivity|]. split; [lia|exact Hr].
    + apply IH in H. destruct H as (k & acc & -> & Hk & H).
      exists (S k), acc. cbn [skipn length]. split; [lia|]. split; [lia|].
      replace (i + S k) with (S i + k) by lia. exact H.
Qed.

(** The search succeeds as soon as the pattern matches at some offset. *)
Lemma scan_complete p : forall pre i rest r,
  run p (fun _ => true) [] (i + length pre) rest = Some r ->
  exists f, scan p false i (pre ++ rest) = Some f.
Proof.
  induction pre as [|c pre IH]; intros i rest r H.
  - cbn [app length] in *. rewrite Nat.add_0_r in H. destruct r as [e ms].
    exists (i, e, ms). destruct rest; cbn [scan];
      change (fun e0 : nat => negb (false && Nat.eqb e0 i)) with (fun _ : nat => true);
      rewrite H; reflexivity.
  - cbn [app scan].
    destruct (run p _ [] i (c :: pre ++ rest)) as [[e1 m1]|]; [eauto|].
    apply (IH (S i) rest r). cbn [length] in H.
    replace (S i + length pre) with (i + S (length pre)) by lia. exact H.
Qed.

(** *** Occurrences of a literal *)

Lemma starts_with_app t s : starts_with t (t ++ s) = true.
Proof. induction t as [|c t IH]; cbn; [reflexivity|]. rewrite N.eqb_refl. exact IH. Qed.

Lemma contains_app_r t a s : contains t s = true -> contains t (a ++ s) = true.
Proof.
  intros H. induction a as [|x a IH]; [exact H|].
  cbn [app contains]. rewrite IH. apply orb_true_r.
Qed.

Lemma contains_here t a s : contains t (a ++ t ++ s) = true.
Proof.
  apply contains_app_r. destruct (t ++ s) eqn:E; cbn [contains];
    rewrite <- E, starts_with_app; reflexivity.
Qed.

Lemma starts_with_inv t : forall s, starts_with t s = true -> exists s', s = t ++ s'.
Proof.
  induction t as [|c t IH]; intros s H; [exists s; reflexivity|].
  destruct s as [|d s]; [discriminate H|]. cbn [starts_with] in H.
  apply andb_true_iff in H as [Hc H]. apply N.eqb_eq in Hc. subst d.
  destruct (IH _ H) as [s' ->]. exists s'. reflexivity.
Qed.

Lemma contains_inv t : forall s,
  contains t s = true -> exists a s', s = a ++ t ++ s'.
Proof.
  induction s as [|c s IH]; intros H; cbn [contains] in H.
  - rewrite orb_false_r in H. apply starts_with_inv in H. destruct H as [s' H].
    exists [], s'. exact H.
  - apply orb_true_iff in H as [H|H].
    + apply starts_with_inv in H. destruct H as [s' H]. exists [], s'. exact H.
    + destruct (IH H) as (a & s' & ->). exists (c :: a), s'. reflexivity.
Qed.

Lemma contains_skipn t k s : contains t (skipn k s) = true -> contains t s = true.
Proof.
  intros H. rewrite <- (firstn_skipn k s). apply contains_app_r, H.
Qed.

(** A literal without the character [sep] cannot straddle it. *)
Lemma starts_with_sep t sep b : forall a,
  all_in (Not sep) t = true ->
  starts_with t (a ++ sep :: b) = starts_with t a.
Proof.
  induction t as [|c t IH]; intros a Ht; [destruct a; reflexivity|].
  unfold all_in in Ht. cbn [forallb mem] in Ht. apply andb_true_iff in Ht as [Hc Ht].
  destruct a as [|x a]; cbn [app starts_with].
  - apply negb_true_iff in Hc. rewrite Hc. reflexivity.
  - rewrite (IH a Ht). reflexivity.
Qed.

Lemma contains_sep t sep a b :
  t <> [] -> all_in (Not sep) t = true ->
  contains t (a ++ sep :: b) = contains t a || contains t b.
Proof.
  intros Hne Ht. induction a as [|x a IH].
  - pose proof (starts_with_sep t sep b [] Ht) as H0. cbn [app] in H0.
    cbn [app contains]. rewrite H0.
    destruct t; [congruence|]. reflexivity.
  - cbn [app contains].
    change (x :: a ++ sep :: b) with ((x :: a) ++ sep :: b).
    rewrite (starts_with_sep t sep b (x :: a) Ht), IH.
    rewrite orb_assoc. reflexivity.
Qed.

(** *** Splitting a text at a character *)

Lemma all_in_app cs a b : all_in cs (a ++ b) = all_in cs a && all_in cs b.
Proof. apply forallb_app. Qed.

Lemma all_in_cons cs c a : all_in cs (c :: a) = mem cs c && all_in cs a.
Proof. reflexivity. Qed.

Lemma all_in_rev cs s : all_in cs (rev s) = all_in cs s.
Proof.
  induction s as [|c s IH]; [reflexivity|].
  cbn [rev]. rewrite all_in_app, IH, !all_in_cons. cbn [all_in forallb].
  rewrite andb_true_r. apply andb_comm.
Qed.

(** White space holds no character that is not white space. *)
Lemma space_run_without c w :
  is_space c = false -> all_in Space w = true -> all_in (Not c) w = true.
Proof.
  intros Hc. induction w as [|x w IH]; [reflexivity|].
  rewrite !all_in_cons. intros H. apply andb_true_iff in H as [Hx Hw].
  rewrite (IH Hw), andb_true_r. cbn [mem] in *.
  destruct (N.eqb_spec x c) as [->|_]; [congruence|reflexivity].
Qed.

(** The first occurrence of a character splits a text in one way only. *)
Lemma split_first c : forall A A' B B',
  all_in (Not c) A = true -> all_in (Not c) A' = true ->
  A ++ c :: B = A' ++ c :: B' -> A = A' /\ B = B'.
Proof.
  induction A as [|x A IH]; intros [|x' A'] B B' HA HA' E; cbn [app] in E.
  - inversion E. auto.
  - inversion E; subst x'. rewrite all_in_cons in HA'. cbn [mem] in HA'.
    rewrite N.eqb_refl in HA'. discriminate HA'.
  - inversion E; subst x. rewrite all_in_cons in HA. cbn [mem] in HA.
    rewrite N.eqb_refl in HA. discriminate HA.
  - inversion E; subst x'. rewrite all_in_cons in HA, HA'.
    apply andb_true_iff in HA as [_ HA]. apply andb_true_iff in HA' as [_ HA'].
    destruct (IH A' B B' HA HA' H1) as [-> ->]. auto.
Qed.

(** ... and so does the last one. *)
Lemma split_last c A A' B B' :
  all_in (Not c) B = true -> all_in (Not c) B' = true ->
  A ++ c :: B = A' ++ c :: B' -> A = A' /\ B = B'.
Proof.
  intros HB HB' E. apply (f_equal (@rev N)) in E.
  rewrite !rev_app_distr in E. cbn [rev] in E. rewrite <- !app_assoc in E. cbn [app] in E.
  apply split_first in E.
  - destruct E as [E1 E2]. apply (f_equal (@rev N)) in E1, E2.
    rewrite !rev_involutive in E1, E2. auto.
  - rewrite all_in_rev. exact HB.
  - rewrite all_in_rev. exact HB'.
Qed.

Lemma find_first c : forall u,
  all_in (Not c) u = true
  \/ exists u1 u2, u = u1 ++ c :: u2 /\ all_in (Not c) u1 = true.
Proof.
  induction u as [|x u IH]; [left; reflexivity|].
  destruct (N.eqb_spec x c) as [->|Hx].
  - right. exists [], u. auto.
  - destruct IH as [IH|(u1 & u2 & -> & H1)].
    + left. rewrite all_in_cons, IH. cbn [mem]. apply N.eqb_neq in Hx. rewrite Hx. reflexivity.
    + right. exists (x :: u1), u2. split; [reflexivity|].
      rewrite all_in_cons, H1. cbn [mem]. apply N.eqb_neq in Hx. rewrite Hx. reflexivity.
Qed.

(** A text that does not end in white space has no suffix, other than the
    empty one, that is white space followed by white space [l]. *)
Lemma suffix_not_space pre k l :
  ends_in Space pre = false -> k < length pre ->
  all_in Space (skipn k pre ++ l) = false.
Proof.
  intros He Hk. rewrite all_in_app.
  destruct (all_in Space (skipn k pre)) eqn:Hu; [|reflexivity]. exfalso.
  unfold ends_in in He. rewrite <- (firstn_skipn k pre), rev_app_distr in He.
  assert (Hne : skipn k pre <> []).
  { intros E. apply (f_equal (@length N)) in E. rewrite length_skipn in E. cbn in E. lia. }
  rewrite <- all_in_rev in Hu.
  destruct (rev (skipn k pre)) as [|c ru] eqn:Er.
  - apply (f_equal (@rev N)) in Er. rewrite rev_involutive in Er. cbn in Er. congruence.
  - cbn [app starts_in] in He. rewrite all_in_cons, He in Hu. discriminate Hu.
Qed.

(** *** string.cc: the truncation guard *)

Lemma string_cc_run l a1 a2 a3 a4 a5 a6 body r post i :
  space_run l -> space_run a1 -> space_run a2 -> space_run a3 ->
  space_run a4 -> space_run a5 -> space_run a6 -> space_run r ->
  all_in (Not (chr "}")) body = true ->
  starts_in Space post = false ->
  run string_cc_pattern (fun _ => true) [] i
    (l ++ guard_block a1 a2 a3 a4 a5 a6 body ++ r ++ post)
  = Some (i + length (l ++ guard_block a1 a2 a3 a4 a5 a6 body ++ r), []).
Proof.
  unfold space_run. intros Hl H1 H2 H3 H4 H5 H6 Hr Hb Hp.
  unfold string_cc_pattern, guard_block, ws. rewrite !lits_lit_ops.
  cbn [app]. rewrite <- !app_assoc.
  do 7 (rewrite run_star_lits by side_conditions).
  rewrite run_star_lits by side_conditions.
  rewrite run_Star.
  erewrite greedy_whole; [| exact Hr | exact Hp | apply run_opt_newline_end, Hp].
  f_equal. f_equal. rewrite !length_app. lia.
Qed.

Lemma guard_block_front l a1 a2 a3 a4 a5 a6 body s :
  l ++ guard_block a1 a2 a3 a4 a5 a6 body ++ s
  = guard_front l a1 a2 a3 a4 ++ keyword
    ++ a5 ++ txt ")" ++ a6 ++ txt "{" ++ body ++ txt "}" ++ s.
Proof. unfold guard_block, guard_front, keyword. rewrite <- !app_assoc. reflexivity. Qed.

Lemma guard_block_length a1 a2 a3 a4 a5 a6 body :
  29 <= length (guard_block a1 a2 a3 a4 a5 a6 body).
Proof. unfold guard_block. rewrite !length_app. cbn. lia. Qed.

(** Every match of the pattern of [string.cc] holds the keyword, after
    tokens separated by white space. *)
Lemma string_cc_run_front acc ms i s r :
  run string_cc_pattern acc ms i s = Some r ->
  exists w0 c1 c2 c3 c4 rest,
    space_run w0 /\ space_run c1 /\ space_run c2 /\ space_run c3 /\ space_run c4
    /\ s = guard_front w0 c1 c2 c3 c4 ++ keyword ++ rest.
Proof.
  unfold string_cc_pattern, ws. rewrite !lits_lit_ops. cbn [app]. intros H.
  apply run_star_inv in H as (w0 & s0 & -> & H0 & H).
  apply run_lit_ops_inv in H as (s0' & -> & H).
  apply run_star_inv in H as (c1 & s1 & -> & H1 & H).
  apply run_lit_ops_inv in H as (s1' & -> & H).
  apply run_star_inv in H as (c2 & s2 & -> & H2 & H).
  apply run_lit_ops_inv in H as (s2' & -> & H).
  apply run_star_inv in H as (c3 & s3 & -> & H3 & H).
  apply run_lit_ops_inv in H as (s3' & -> & H).
  apply run_star_inv in H as (c4 & s4 & -> & H4 & H).
  apply run_lit_ops_inv in H as (rest & -> & H).
  exists w0, c1, c2, c3, c4, rest. unfold space_run, guard_front, keyword.
  rewrite <- !app_assoc. auto 10.
Qed.

(** A text without the keyword has no match. *)
Lemma string_cc_no_match s :
  contains keyword s = false -> re_search string_cc_pattern s = None.
Proof.
  intros Hc. destruct (re_search string_cc_pattern s) as [[[b e] ms]|] eqn:Hs;
    [|reflexivity].
  unfold re_search in Hs. apply scan_inv in Hs as (k & acc & _ & _ & Hr).
  apply string_cc_run_front in Hr as (w0 & c1 & c2 & c3 & c4 & rest & _ & _ & _ & _ & _ & E).
  assert (contains keyword s = true); [|congruence].
  apply (contains_skipn _ k). rewrite E. apply contains_here.
Qed.

Lemma guard_front_no_k l a1 a2 a3 a4 :
  space_run l -> space_run a1 -> space_run a2 -> space_run a3 -> space_run a4 ->
  all_in (Not (chr "k")) (guard_front l a1 a2 a3 a4) = true.
Proof.
  unfold space_run, guard_front. intros Hl H1 H2 H3 H4.
  rewrite !all_in_app.
  rewrite (space_run_without (chr "k") l), (space_run_without (chr "k") a1),
    (space_run_without (chr "k") a2), (space_run_without (chr "k") a3),
    (space_run_without (chr "k") a4) by (assumption || reflexivity).
  reflexivity.
Qed.

(** The front of a match, split at its only [i]. *)
Lemma guard_front_split l a1 a2 a3 a4 :
  space_run a1 -> space_run a2 -> space_run a3 -> space_run a4 ->
  exists T, guard_front l a1 a2 a3 a4 = l ++ chr "i" :: T
            /\ all_in (Not (chr "i")) T = true.
Proof.
  unfold space_run, guard_front. intros H1 H2 H3 H4.
  exists (txt "f" ++ a1 ++ txt "(" ++ a2 ++ txt "len" ++ a3 ++ txt ">" ++ a4).
  split; [reflexivity|].
  rewrite !all_in_app.
  rewrite (space_run_without (chr "i") a1), (space_run_without (chr "i") a2),
    (space_run_without (chr "i") a3), (space_run_without (chr "i") a4)
    by (assumption || reflexivity).
  reflexivity.
Qed.

(** The characters of the keyword after its [k]: none is white space, and
    the only [i] is followed by [n]. *)
Lemma keyword_tail_split u2 c x :
  txt "MaxShortPrintLength" = u2 ++ c :: x ->
  is_space c = false /\ (c = chr "i" -> exists x', x = chr "n" :: x').
Proof.
  intros E. split.
  - assert (H : forallb (fun d => negb (is_space d)) (txt "MaxShortPrintLength") = true)
      by reflexivity.
    rewrite E, forallb_app in H. apply andb_true_iff in H as [_ H].
    cbn [forallb] in H. apply andb_true_iff in H as [H _].
    apply negb_true_iff in H. exact H.
  - intros ->.
    change (txt "MaxShortPrintLength")
      with (txt "MaxShortPr" ++ chr "i" :: txt "ntLength") in E.
    destruct (find_first (chr "i") u2) as [Nu|(v1 & v2 & -> & Nv)].
    + apply split_first in E as [_ E]; [|reflexivity|exact Nu].
      exists (txt "tLength"). symmetry. exact E.
    + rewrite <- app_assoc in E. cbn [app] in E.
      apply split_first in E as [_ E]; [|reflexivity|exact Nv].
      assert (H : all_in (Not (chr "i")) (txt "ntLength") = true) by reflexivity.
      rewrite E, all_in_app, !all_in_cons in H. cbn [mem] in H.
      rewrite N.eqb_refl in H. cbn [negb] in H. rewrite andb_false_r in H.
      discriminate H.
Qed.

(** No match begins in a text [pre] that lacks the keyword and does not end
    in white space, when a guard block follows. *)
Lemma string_cc_no_earlier_match pre l a1 a2 a3 a4 rest :
  space_run l -> space_run a1 -> space_run a2 -> space_run a3 -> space_run a4 ->
  contains keyword pre = false -> ends_in Space pre = false ->
  no_match_before string_cc_pattern
    (pre ++ guard_front l a1 a2 a3 a4 ++ keyword ++ rest) (length pre) = true.
Proof.
  intros Hl H1 H2 H3 H4 Hkw Hend.
  unfold no_match_before. apply forallb_forall. intros k Hk. apply in_seq in Hk.
  unfold matches_at.
  destruct (run string_cc_pattern _ [] k _) as [res|] eqn:Hrun; [exfalso|reflexivity].
  rewrite skipn_app in Hrun.
  replace (k - length pre) with 0 in Hrun by lia. rewrite skipn_O in Hrun.
  set (u := skipn k pre) in *.
  assert (Hu : contains keyword u = false).
  { destruct (contains keyword u) eqn:E; [|reflexivity].
    apply contains_skipn in E. congruence. }
  assert (Hns : forall x, all_in Space (u ++ x) = false).
  { intros x. apply suffix_not_space; [exact Hend|lia]. }
  apply string_cc_run_front in Hrun
    as (w0 & c1 & c2 & c3 & c4 & rest' & W0 & C1 & C2 & C3 & C4 & E).
  pose proof (guard_front_no_k l a1 a2 a3 a4 Hl H1 H2 H3 H4) as NkY.
  pose proof (guard_front_no_k w0 c1 c2 c3 c4 W0 C1 C2 C3 C4) as Nk.
  change keyword with ([chr "k"] ++ txt "MaxShortPrintLength") in E.
  rewrite <- !app_assoc in E. cbn [app] in E.
  destruct (find_first (chr "k") u) as [Nu|(u1 & u2 & Eu & Nu1)].
  - (* the keyword of the match is the one of the block *)
    rewrite app_assoc in E. apply split_first in E as [E _];
      [|rewrite all_in_app, Nu, NkY; reflexivity|exact Nk].
    destruct (guard_front_split l a1 a2 a3 a4 H1 H2 H3 H4) as (TY & EY & NY).
    destruct (guard_front_split w0 c1 c2 c3 c4 C1 C2 C3 C4) as (T & ET & NT).
    rewrite EY, ET, app_assoc in E. apply split_last in E as [E _]; [|exact NY|exact NT].
    specialize (Hns l). rewrite E in Hns. unfold space_run in W0. congruence.
  - (* the keyword of the match begins inside [pre] *)
    rewrite Eu, <- app_assoc in E. cbn [app] in E.
    apply split_first in E as [_ E]; [|exact Nu1|exact Nk].
    apply app_eq_app in E as [x [[E1 E2]|[E1 E2]]].
    + (* ... and ends inside it *)
      assert (contains keyword u = true); [|congruence].
      rewrite Eu, E1. apply (contains_here keyword u1 x).
    + (* ... and ends beyond it *)
      destruct x as [|c x].
      * rewrite app_nil_r in E1. subst u2.
        assert (contains keyword u = true); [|congruence].
        rewrite Eu. apply (contains_here keyword u1 []).
      * destruct (keyword_tail_split u2 c x E1) as [Hsp Hi].
        destruct l as [|l0 l'].
        -- unfold guard_front in E2. cbn [app txt list_ascii_of_string map] in E2.
           inversion E2 as [[Ec E2']]. destruct (Hi (eq_sym Ec)) as [x' ->].
           discriminate E2'.
        -- unfold guard_front in E2. cbn [app] in E2. inversion E2 as [[Ec E2']].
           unfold space_run in Hl. rewrite all_in_cons in Hl. cbn [mem] in Hl.
           rewrite Ec, Hsp in Hl. discriminate Hl.
Qed.

(** C5, as stated, fails: the rule also removes the white space around the
    block (the line break before it and the indentation of the next line),
    and [kMaxShortPrintLength] stays where it occurs outside a guard. *)
Lemma string_cc_removes_more_than_the_block :
  re_sub string_cc_pattern string_cc_repl
    (txt "  int n = kMaxShortPrintLength;" ++ [LF]
     ++ txt "  if (len > kMaxShortPrintLength) {" ++ [LF]
     ++ txt "    return;" ++ [LF]
     ++ txt "  }" ++ [LF]
     ++ txt "  Print();" ++ [LF])
  = txt "  int n = kMaxShortPrintLength;" ++ [LF] ++ txt "Print();" ++ [LF].
Proof. vm_compute. reflexivity. Qed.

(** C5, amended. Let the file content be [pre ++ l ++ G ++ r ++ post] where
    [G] is a guard block (white space between its tokens, a body without a
    closing brace), [l] and [r] are white space and [post] does not begin
    with white space.
    - If no match begins inside [pre], the detection pattern is found at the
      white space before the block and the rewrite replaces [l ++ G ++ r],
      the block with the white space around it, by a single newline: [pre]
      is kept as it is and the rewrite goes on in [post].
    - If moreover [kMaxShortPrintLength] occurs neither in [pre] nor in
      [post] and [pre] does not end in white space, then no match begins
      inside [pre], the rewritten text is [pre], a newline, [post], it no
      longer contains [kMaxShortPrintLength], and the executor, when reading
      and writing do not fail, returns [True] and leaves that text in
      [string.cc]. *)
Theorem string_cc_deletion pre l a1 a2 a3 a4 a5 a6 body r post :
  space_run l -> space_run a1 -> space_run a2 -> space_run a3 ->
  space_run a4 -> space_run a5 -> space_run a6 -> space_run r ->
  all_in (Not (chr "}")) body = true ->
  starts_in Space post = false ->
  (no_match_before string_cc_pattern
     (pre ++ l ++ guard_block a1 a2 a3 a4 a5 a6 body ++ r ++ post) (length pre) = true ->
   re_search string_cc_pattern
     (pre ++ l ++ guard_block a1 a2 a3 a4 a5 a6 body ++ r ++ post)
   = Some (length pre,
           length pre + length (l ++ guard_block a1 a2 a3 a4 a5 a6 body ++ r), [])
   /\ re_sub string_cc_pattern string_cc_repl
        (pre ++ l ++ guard_block a1 a2 a3 a4 a5 a6 body ++ r ++ post)
      = pre ++ [LF] ++ re_sub string_cc_pattern string_cc_repl post)
  /\ (contains keyword pre = false -> ends_in Space pre = false ->
      contains keyword post = false ->
      no_match_before string_cc_pattern
        (pre ++ l ++ guard_block a1 a2 a3 a4 a5 a6 body ++ r ++ post) (length pre) = true
      /\ re_sub string_cc_pattern string_cc_repl
           (pre ++ l ++ guard_block a1 a2 a3 a4 a5 a6 body ++ r ++ post)
         = pre ++ [LF] ++ post
      /\ contains keyword (pre ++ [LF] ++ post) = false
      /\ forall self w f,
           fs w !! (v8_dir self ++ string_cc) = Some (File f) ->
           read_fault f = None -> write_fault f = None ->
           universal_newlines (content f)
           = pre ++ l ++ guard_block a1 a2 a3 a4 a5 a6 body ++ r ++ post ->
           fst (patch_string_cc self w) = Ret true
           /\ fs (snd (patch_string_cc self w))
              = <[v8_dir self ++ string_cc := File (mkFile (pre ++ [LF] ++ post) None None)]>
                  (fs w)).
Proof.
  intros Hl H1 H2 H3 H4 H5 H6 Hr Hb Hp.
  assert (HA : no_match_before string_cc_pattern
                 (pre ++ l ++ guard_block a1 a2 a3 a4 a5 a6 body ++ r ++ post)
                 (length pre) = true ->
               re_search string_cc_pattern
                 (pre ++ l ++ guard_block a1 a2 a3 a4 a5 a6 body ++ r ++ post)
               = Some (length pre,
                       length pre + length (l ++ guard_block a1 a2 a3 a4 a5 a6 body ++ r),
                       [])
               /\ re_sub string_cc_pattern string_cc_repl
                    (pre ++ l ++ guard_block a1 a2 a3 a4 a5 a6 body ++ r ++ post)
                  = pre ++ [LF] ++ re_sub string_cc_pattern string_cc_repl post).
  { intros Hno.
    assert (Hs : re_search string_cc_pattern
                   (pre ++ l ++ guard_block a1 a2 a3 a4 a5 a6 body ++ r ++ post)
                 = Some (length pre,
                         length pre
                         + length (l ++ guard_block a1 a2 a3 a4 a5 a6 body ++ r), [])).
    { apply re_search_at; [exact Hno|]. apply string_cc_run; assumption. }
    split; [exact Hs|].
    rewrite (re_sub_step _ _ _ _ _ _ Hs).
    - rewrite take_app_length.
      replace (pre ++ l ++ guard_block a1 a2 a3 a4 a5 a6 body ++ r ++ post)
        with ((pre ++ l ++ guard_block a1 a2 a3 a4 a5 a6 body ++ r) ++ post)
        by (rewrite <- !app_assoc; reflexivity).
      rewrite <- length_app, drop_app_length. reflexivity.
    - pose proof (guard_block_length a1 a2 a3 a4 a5 a6 body). rewrite !length_app. lia. }
  split; [exact HA|].
  intros Kpre Epre Kpost.
  assert (Hno : no_match_before string_cc_pattern
                  (pre ++ l ++ guard_block a1 a2 a3 a4 a5 a6 body ++ r ++ post)
                  (length pre) = true).
  { rewrite guard_block_front. apply string_cc_no_earlier_match; assumption. }
  destruct (HA Hno) as [Hs Hsub].
  rewrite (re_sub_none _ _ post (string_cc_no_match post Kpost)) in Hsub.
  split; [exact Hno|]. split; [exact Hsub|]. split.
  - cbn [app]. rewrite contains_sep by (discriminate || reflexivity).
    rewrite Kpre, Kpost. reflexivity.
  - intros self w f Hf Hrf Hwf Hcontent.
    destruct (executor_applies string_rule self w f (pre ++ [LF] ++ post))
      as (_ & Hres & Hfs); try assumption.
    + cbn [rule_of detect]. rewrite Hcontent, Hs. discriminate.
    + cbn [rule_of detect rewrite]. rewrite Hcontent. exact Hsub.
    + rewrite Hcontent. intros E. apply (f_equal (@length N)) in E.
      pose proof (guard_block_length a1 a2 a3 a4 a5 a6 body).
      rewrite !length_app in E. cbn [length] in E. lia.
    + split; [exact Hres|exact Hfs].
Qed.

Lemma string_cc_deletion_witness :
  re_sub string_cc_pattern string_cc_repl guard_source
  = txt "  Add(x);" ++ [LF] ++ txt "Print();" ++ [LF]
  /\ contains keyword (txt "  Add(x);" ++ [LF] ++ txt "Print();" ++ [LF]) = false
  /\ fst (patch_string_cc (init ["v8"] ["log"]) original_world) = Ret true
  /\ fs (snd (patch_string_cc (init ["v8"] ["log"]) original_world))
       !! ["v8"; "src"; "objects"; "string.cc"]
     = Some (File (mkFile (txt "  Add(x);" ++ [LF] ++ txt "Print();" ++ [LF]) None None)).
Proof.
  pose proof (string_cc_deletion (txt "  Add(x);") ([LF] ++ txt "  ")
                (txt " ") [] (txt " ") (txt " ") [] (txt " ")
                ([LF] ++ txt "    accumulator->Put('>');" ++ [LF] ++ txt "    return;"
                 ++ [LF] ++ txt "  ")
                ([LF] ++ txt "  ") (txt "Print();" ++ [LF])
                eq_refl eq_refl eq_refl eq_refl eq_refl eq_refl eq_refl eq_refl
                eq_refl eq_refl) as [_ HB].
  destruct (HB eq_refl eq_refl eq_refl) as (_ & Hsub & Hkw & Hexec).
  destruct (Hexec (init ["v8"] ["log"]) original_world (mkFile guard_source None None)
              ltac:(vm_compute; reflexivity) eq_refl eq_refl
              ltac:(vm_compute; reflexivity)) as [Hres Hfs].
  split; [exact Hsub|]. split; [exact Hkw|]. split; [exact Hres|].
  rewrite Hfs. apply lookup_insert_eq.
Defined.

(** *** deserializer.cc: the magic-number assertion *)



Lemma check_eq_length a1 a2 a3 a4 a5 : 52 <= length (check_eq a1 a2 a3 a4 a5).
Proof. unfold check_eq. rewrite !length_app. cbn. lia. Qed.

(** Every match of the pattern of [deserializer.cc] holds the keyword, after
    tokens separated by white space. *)
Lemma deserializer_cc_run_front acc ms i s r :
  run deserializer_cc_pattern acc ms i s = Some r ->
  exists w0 c1 c2 c3 c4 rest,
    space_run w0 /\ space_run c1 /\ space_run c2 /\ space_run c3 /\ space_run c4
    /\ s = check_front w0 c1 c2 c3 c4 ++ magic_keyword ++ rest.
Proof.
  unfold deserializer_cc_pattern. fold ws. unfold ws at 1 2 3 4 5.
  rewrite !lits_lit_ops. cbn [app]. intros H.
  apply run_star_inv in H as (w0 & s0 & -> & H0 & H).
  apply run_lit_ops_inv in H as (s0' & -> & H).
  apply run_star_inv in H as (c1 & s1 & -> & H1 & H).
  apply run_lit_ops_inv in H as (s1' & -> & H).
  apply run_star_inv in H as (c2 & s2 & -> & H2 & H).
  apply run_lit_ops_inv in H as (s2' & -> & H).
  apply run_star_inv in H as (c3 & s3 & -> & H3 & H).
  apply run_lit_ops_inv in H as (s3' & -> & H).
  apply run_star_inv in H as (c4 & s4 & -> & H4 & H).
  apply run_lit_ops_inv in H as (rest & -> & H).
  exists w0, c1, c2, c3, c4, rest. unfold space_run, check_front, magic_keyword.
  rewrite <- !app_assoc. auto 10.
Qed.

(** A text without the keyword has no match. *)
Lemma deserializer_cc_no_match s :
  contains magic_keyword s = false -> re_search deserializer_cc_pattern s = None.
Proof.
  intros Hc. destruct (re_search deserializer_cc_pattern s) as [[[b e] ms]|] eqn:Hs;
    [|reflexivity].
  unfold re_search in Hs. apply scan_inv in Hs as (k & acc & _ & _ & Hr).
  apply deserializer_cc_run_front in Hr
    as (w0 & c1 & c2 & c3 & c4 & rest & _ & _ & _ & _ & _ & E).
  assert (contains magic_keyword s = true); [|congruence].
  apply (contains_skipn _ k). rewrite E. apply contains_here.
Qed.








(** *** code-serializer.cc: the sanity check *)


Lemma statements_length b cond args : 112 <= length (statements b cond args).
Proof. unfold statements. rewrite !length_app. cbn. lia. Qed.

Lemma success_return_length : length success_return = 52.
Proof. reflexivity. Qed.





(** *** Idempotence *)




(** *** The end-to-end scenario *)

(** The end-to-end scenario of the specification: the three files in their
    original form are all patched, the run exits with status 0 and the log
    holds three "applied" lines. *)
Example end_to_end :
  fst (main [["semantic-patches.py"]; ["v8"]; ["log"]] original_world) = 0
  /\ List.filter (fun m => match m with Applied _ => true | _ => false end)
       (logfile (snd (main [["semantic-patches.py"]; ["v8"]; ["log"]] original_world)))
     = [Applied "string.cc"; Applied "deserializer.cc"; Applied "code-serializer.cc"]
  /\ fs (snd (main [["semantic-patches.py"]; ["v8"]; ["log"]] original_world))
       !! ["v8"; "src"; "snapshot"; "code-serializer.cc"]
     = Some (File (mkFile
                     ((txt "// check" ++ [LF])
                      ++ signature (txt " ") [] ([LF] ++ txt "    uint32_t expected_source_hash")
                           (txt " ") (txt " ")
                      ++ success_return ++ [LF] ++ txt "}" ++ [LF]) None None)).
Proof. repeat split; vm_compute; reflexivity. Qed.

(** *** The log and the files after a run *)

Lemma executor_report i self w :
  stdout (snd (executor i self w)) = stdout w ++ report i self w
  /\ logfile (snd (executor i self w)) = logfile w ++ report i self w.
Proof.
  unfold report. destruct w, i; exec_cases;
    rewrite <- ?app_assoc, ?app_nil_r; split; reflexivity.
Qed.

Lemma report_target i self w1 w2 :
  fs w1 !! (v8_dir self ++ target (rule_of i)) = fs w2 !! (v8_dir self ++ target (rule_of i)) ->
  report i self w1 = report i self w2.
Proof. unfold report. intros ->. reflexivity. Qed.

Lemma block_target i self w1 w2 :
  fs w1 !! (v8_dir self ++ target (rule_of i)) = fs w2 !! (v8_dir self ++ target (rule_of i)) ->
  block i self w1 = block i self w2.
Proof.
  intros H. unfold block.
  rewrite (report_target _ _ _ _ H), (spec_outcome_target _ _ _ _ H). reflexivity.
Qed.

Lemma fs_after_target r self w1 w2 :
  fs w1 !! (v8_dir self ++ target r) = fs w2 !! (v8_dir self ++ target r) ->
  fs_after r self w1 !! (v8_dir self ++ target r)
  = fs_after r self w2 !! (v8_dir self ++ target r).
Proof.
  intros H. unfold fs_after. rewrite (spec_outcome_target _ _ _ _ H).
  destruct (spec_outcome r self w2); try exact H.
  rewrite H.
  destruct (fs w2 !! (v8_dir self ++ target r)) as [[f| |e]|] eqn:E;
    rewrite ?lookup_insert_eq; congruence.
Qed.

(** One round of the loop for a rule of the catalogue: the counters, the
    files and the log. *)
Lemma process_block i self0 self w :
  exists w',
    process self (name_of i, executor i self0) w
      = (Ret (tally (spec_outcome (rule_of i) self0 w) self), w')
    /\ fs w' = fs_after (rule_of i) self0 w
    /\ stdout w' = stdout w ++ block i self0 w
    /\ logfile w' = logfile w ++ block i self0 w.
Proof.
  unfold process, bind, catch. cbn [log note_call snd fst].
  match goal with |- context [executor i self0 ?w0] => set (w1 := w0) end.
  assert (Hw1 : fs w1 = fs w) by reflexivity.
  pose proof (executor_result i self0 w1) as Hr.
  pose proof (executor_fs i self0 w1) as Hf.
  destruct (executor_report i self0 w1) as [Ho Hl].
  rewrite (spec_outcome_fs _ _ _ _ Hw1) in Hr.
  assert (Hfs : fs_after (rule_of i) self0 w1 = fs_after (rule_of i) self0 w).
  { unfold fs_after. rewrite (spec_outcome_fs _ _ _ _ Hw1), Hw1. reflexivity. }
  rewrite Hfs in Hf.
  rewrite (report_target i self0 w1 w) in Ho, Hl by (rewrite Hw1; reflexivity).
  unfold block.
  destruct (executor i self0 w1) as [r w2]. cbn [fst snd] in *. subst r.
  destruct (spec_outcome (rule_of i) self0 w); cbn [verdict tally];
    unfold ret, log; cbn [fs stdout logfile invoked];
    eexists; (split; [reflexivity|]); cbn [fs stdout logfile];
    rewrite Hf, Ho, Hl; subst w1; cbn [stdout logfile];
    rewrite <- ?app_assoc; cbn [app]; auto.
Qed.

(** A run of [apply_all], whatever the patcher and the world: the value, the
    counters, the log, and the node at every path. *)
Lemma apply_all_trace self w :
  exists w',
    apply_all self w
      = (Ret (0 <? success_count (tallied self w), tallied self w), w')
    /\ stdout w' = stdout w ++ run_log self w
    /\ logfile w' = logfile w ++ run_log self w
    /\ (forall i, fs w' !! (v8_dir self ++ target (rule_of i))
                  = fs_after (rule_of i) self w !! (v8_dir self ++ target (rule_of i)))
    /\ (forall p, (forall i, p <> v8_dir self ++ target (rule_of i)) ->
                  fs w' !! p = fs w !! p).
Proof.
  unfold apply_all, tallied, patches.
  unfold bind at 1. cbn [log]. unfold bind at 1. cbn [log fs stdout logfile invoked].
  match goal with |- context [bind _ _ ?w0] => set (w0' := w0) end.
  assert (H0 : fs w0' = fs w) by reflexivity.
  assert (S0 : stdout w0' = stdout w ++ [Started; Blank])
    by (subst w0'; cbn [stdout]; rewrite <- app_assoc; reflexivity).
  assert (L0 : logfile w0' = logfile w ++ [Started; Blank])
    by (subst w0'; cbn [logfile]; rewrite <- app_assoc; reflexivity).
  clearbody w0'.
  destruct (process_block string_rule self self w0') as (w1 & P1 & F1 & S1 & L1).
  destruct (process_block deserializer_rule self
              (tally (spec_outcome (rule_of string_rule) self w) self) w1)
    as (w2 & P2 & F2 & S2 & L2).
  destruct (process_block code_serializer_rule self
              (tally (spec_outcome (rule_of deserializer_rule) self w)
                 (tally (spec_outcome (rule_of string_rule) self w) self)) w2)
    as (w3 & P3 & F3 & S3 & L3).
  pose proof (targets_distinct string_rule deserializer_rule (v8_dir self)
                ltac:(discriminate)) as D12.
  pose proof (targets_distinct string_rule code_serializer_rule (v8_dir self)
                ltac:(discriminate)) as D13.
  pose proof (targets_distinct deserializer_rule code_serializer_rule (v8_dir self)
                ltac:(discriminate)) as D23.
  assert (T1 : fs w0' !! (v8_dir self ++ target (rule_of string_rule))
               = fs w !! (v8_dir self ++ target (rule_of string_rule)))
    by (rewrite H0; reflexivity).
  assert (T2 : fs w1 !! (v8_dir self ++ target (rule_of deserializer_rule))
               = fs w !! (v8_dir self ++ target (rule_of deserializer_rule))).
  { rewrite F1, fs_after_other by congruence. rewrite H0. reflexivity. }
  assert (T3 : fs w2 !! (v8_dir self ++ target (rule_of code_serializer_rule))
               = fs w !! (v8_dir self ++ target (rule_of code_serializer_rule))).
  { rewrite F2, fs_after_other by congruence.
    rewrite F1, fs_after_other by congruence. rewrite H0. reflexivity. }
  rewrite (spec_outcome_target _ _ _ _ T1) in P1.
  rewrite (spec_outcome_target _ _ _ _ T2) in P2.
  rewrite (spec_outcome_target _ _ _ _ T3) in P3.
  rewrite (block_target _ _ _ _ T1) in S1, L1.
  rewrite (block_target _ _ _ _ T2) in S2, L2.
  rewrite (block_target _ _ _ _ T3) in S3, L3.
  cbn [for_each name_of executor] in *.
  unfold bind at 1. unfold bind at 1. rewrite P1.
  unfold bind at 1. rewrite P2.
  unfold bind at 1. rewrite P3.
  unfold ret at 1.
  unfold bind, log, ret. cbn [fs stdout logfile invoked].
  eexists. split; [reflexivity|]. cbn [fs stdout logfile].
  unfold run_log, tallied.
  split; [rewrite S3, S2, S1, S0, <- !app_assoc; reflexivity|].
  split; [rewrite L3, L2, L1, L0, <- !app_assoc; reflexivity|].
  split.
  - intros [| |].
    + rewrite F3, fs_after_other by congruence.
      rewrite F2, fs_after_other by congruence.
      rewrite F1. apply fs_after_target, T1.
    + rewrite F3, fs_after_other by congruence.
      rewrite F2. apply fs_after_target, T2.
    + rewrite F3. apply fs_after_target, T3.
  - intros p Hp.
    rewrite F3, fs_after_other by apply Hp.
    rewrite F2, fs_after_other by apply Hp.
    rewrite F1, fs_after_other by apply Hp.
    rewrite H0. reflexivity.
Qed.

(** What [fs_after] leaves at the target, by the outcome. *)
Lemma fs_after_lookup r self w :
  fs_after r self w !! (v8_dir self ++ target r)
  = match spec_outcome r self w, fs w !! (v8_dir self ++ target r) with
    | applied, Some (File f) => Some (File (mkFile (patched r (content f)) (read_fault f) None))
    | _, n => n
    end.
Proof.
  unfold fs_after.
  destruct (spec_outcome r self w);
    destruct (fs w !! (v8_dir self ++ target r)) as [[?| |?]|] eqn:E;
    rewrite ?lookup_insert_eq; congruence.
Qed.

Lemma spec_outcome_applied_file r self w :
  spec_outcome r self w = applied ->
  exists f, fs w !! (v8_dir self ++ target r) = Some (File f)
            /\ read_fault f = None /\ write_fault f = None
            /\ re_search (detect r) (universal_newlines (content f)) <> None
            /\ universal_newlines (content f) <> patched r (content f).
Proof.
  unfold spec_outcome.
  destruct (fs w !! (v8_dir self ++ target r)) as [[f| |e]|]; try discriminate.
  destruct (read_fault f) eqn:Hr; try discriminate.
  destruct (re_search _ _) eqn:Hs; try discriminate.
  destruct (bool_decide _) eqn:Hd; try discriminate.
  destruct (write_fault f) eqn:Hw; try discriminate.
  intros _. exists f. rewrite Hs. repeat split; try assumption; try discriminate.
  eapply bool_decide_eq_false_1. exact Hd.
Qed.

Lemma succeeded_file r self w :
  succeeded (spec_outcome r self w) = true ->
  exists f, fs w !! (v8_dir self ++ target r) = Some (File f) /\ read_fault f = None.
Proof.
  unfold spec_outcome.
  destruct (fs w !! (v8_dir self ++ target r)) as [[f| |e]|]; try discriminate.
  destruct (read_fault f) eqn:Hr; try discriminate. eauto.
Qed.

(** X1. [main] refuses to run without its two operands or when the first
    operand is not a directory (a missing path, a regular file and a path
    that cannot be examined included): the exit status is 1, no rule has
    been called, and neither the files nor the log file have been touched.
    (The usage and error texts that [main] prints are not in the model.) *)
Theorem main_rejects_bad_arguments (argv : list (list string)) (w : world) :
  length argv < 3 \/ (exists v8, argv !! 1 = Some v8 /\ fs w !! v8 <> Some Dir) ->
  fst (main argv w) = 1
  /\ fs (snd (main argv w)) = fs w
  /\ logfile (snd (main argv w)) = logfile w
  /\ invoked (snd (main argv w)) = invoked w.
Proof.
  intros [Hlen|(v8 & Hv & Hd)].
  - destruct argv as [|a [|b [|c rest]]]; cbn in Hlen; try lia; cbn; auto.
  - destruct argv as [|a [|b [|c rest]]]; cbn in Hv; try discriminate; cbn; auto.
    inversion Hv; subst b. unfold isdir.
    destruct (fs w !! v8) as [[f| |e]|]; cbn; auto. congruence.
Qed.

Lemma main_rejects_bad_arguments_witness :
  fst (main [["semantic-patches.py"]; ["v8"; "src"; "objects"; "string.cc"]; ["log"]]
         original_world) = 1
  /\ fst (main [["semantic-patches.py"]; ["v8"]] original_world) = 1.
Proof.
  split.
  - apply (main_rejects_bad_arguments
             [["semantic-patches.py"]; ["v8"; "src"; "objects"; "string.cc"]; ["log"]]
             original_world).
    right. exists ["v8"; "src"; "objects"; "string.cc"].
    split; [reflexivity|vm_compute; discriminate].
  - apply (main_rejects_bad_arguments [["semantic-patches.py"]; ["v8"]] original_world).
    left. cbn. lia.
Defined.

(** X2. Exit status 0 needs a file to work on: when [main] ends with status
    0, it was given its two operands, the first one is a directory, and at
    least one of the three target files exists under it as a regular file
    that can be read. With none of the three files in place the status
    is 1. *)
Theorem main_exit_zero_needs_a_target (argv : list (list string)) (w : world) :
  fst (main argv w) = 0 ->
  exists prog v8 lf rest i f,
    argv = prog :: v8 :: lf :: rest
    /\ fs w !! v8 = Some Dir
    /\ fs w !! (v8 ++ target (rule_of i)) = Some (File f)
    /\ read_fault f = None.
Proof.
  destruct argv as [|prog [|v8 [|lf rest]]]; try (cbn; discriminate).
  unfold main, isdir.
  destruct (fs w !! v8) as [[f| |e]|] eqn:Hd; try (cbn; discriminate).
  destruct (apply_all_trace (init v8 lf) w) as (w' & Hrun & _).
  rewrite Hrun.
  destruct (tallied_counts (init v8 lf) w) as [Hs _]. rewrite Hs.
  cbn [success_count init Nat.add fst].
  destruct (0 <? successes (init v8 lf) w) eqn:Hpos; [|discriminate].
  intros _. apply Nat.ltb_lt in Hpos.
  assert (exists i, succeeded (spec_outcome (rule_of i) (init v8 lf) w) = true)
    as [i Hi].
  { unfold successes, all_rules in Hpos. cbn [List.filter] in Hpos.
    destruct (succeeded (spec_outcome (rule_of string_rule) (init v8 lf) w)) eqn:E1;
      [eauto|].
    destruct (succeeded (spec_outcome (rule_of deserializer_rule) (init v8 lf) w)) eqn:E2;
      [eauto|].
    destruct (succeeded (spec_outcome (rule_of code_serializer_rule) (init v8 lf) w)) eqn:E3;
      [eauto|].
    cbn in Hpos. lia. }
  apply succeeded_file in Hi as (f & Hf & Hr). cbn [v8_dir init] in Hf.
  exists prog, v8, lf, rest, i, f. auto.
Qed.

Lemma main_exit_zero_needs_a_target_witness :
  exists i f,
    fs demo_world !! (["v8"] ++ target (rule_of i)) = Some (File f)
    /\ read_fault f = None.
Proof.
  destruct (main_exit_zero_needs_a_target
              [["semantic-patches.py"]; ["v8"]; ["log"]] demo_world
              ltac:(vm_compute; reflexivity))
    as (prog & v8 & lf & rest & i & f & Ha & _ & Hf & Hr).
  inversion Ha; subst. exists i, f. split; [exact Hf|exact Hr].
Defined.





(** *** More on the engine: what a successful run has consumed *)

Lemma run_nil_inv acc ms i s e ms' :
  run [] acc ms i s = Some (e, ms') -> e = i /\ ms' = ms.
Proof. cbn [run]. destruct (acc i); [|discriminate]. intros H. inversion H. auto. Qed.

Lemma run_plus_inv cs p acc ms i s r :
  run (Plus cs :: p) acc ms i s = Some r ->
  exists w s', s = w ++ s' /\ all_in cs w = true /\ w <> []
               /\ run p acc ms (i + length w) s' = Some r.
Proof.
  destruct s as [|c s]; [discriminate|]. rewrite run_Plus.
  destruct (mem cs c) eqn:Hc; [|discriminate]. intros H.
  apply greedy_inv in H as (w & s' & -> & Hw & H).
  exists (c :: w), s'. rewrite all_in_cons, Hc, Hw. cbn [length app].
  replace (i + S (length w)) with (S i + length w) by lia.
  repeat split; [discriminate|exact H].
Qed.

Lemma run_lit_ops_end_inv t acc ms i s e ms' :
  run (lit_ops t) acc ms i s = Some (e, ms') ->
  exists s', s = t ++ s' /\ e = i + length t /\ ms' = ms.
Proof.
  rewrite <- (app_nil_r (lit_ops t)). intros H.
  apply run_lit_ops_inv in H as (s' & -> & H).
  apply run_nil_inv in H as [-> ->]. eauto.
Qed.

Lemma run_min_len p acc : forall ms i s e ms',
  run p acc ms i s = Some (e, ms') -> i + min_len p <= e.
Proof.
  induction p as [|o p IH]; intros ms i s e ms' H; cbn [run] in H.
  - destruct (acc i); inversion H; subst. cbn. lia.
  - destruct o as [cs|cs|cs|cs|k]; cbn [min_len].
    + destruct s as [|c s]; [discriminate|]. destruct (mem cs c); [|discriminate].
      apply IH in H. lia.
    + apply greedy_inv in H as (w & s' & -> & _ & H). apply IH in H. lia.
    + destruct s as [|c s]; [discriminate|]. destruct (mem cs c); [|discriminate].
      apply greedy_inv in H as (w & s' & -> & _ & H). apply IH in H. lia.
    + destruct s as [|c s]; [apply IH in H; exact H|].
      destruct (mem cs c).
      * destruct (run p acc ms (S i) s) as [[e1 m1]|] eqn:H1.
        -- inversion H; subst. apply IH in H1. lia.
        -- apply IH in H. exact H.
      * apply IH in H. exact H.
    + apply IH in H. exact H.
Qed.

(** A greedy repeat whose continuation cannot fail takes the whole run. *)
Lemma greedy_always {A} cs (k : nat -> list N -> option A) :
  (forall j t, k j t <> None) -> forall s i,
  exists w s', s = w ++ s' /\ all_in cs w = true /\ starts_in cs s' = false
               /\ greedy cs k i s = k (i + length w) s'.
Proof.
  intros Hk. induction s as [|c s IH]; intros i.
  - exists [], []. cbn. rewrite Nat.add_0_r. auto.
  - cbn [greedy]. destruct (mem cs c) eqn:Hc.
    + destruct (IH (S i)) as (w & s' & -> & Hw & Hs & Hg).
      exists (c :: w), s'. rewrite Hg.
      destruct (k (S i + length w) s') eqn:Hk'; [|exfalso; eapply Hk; eauto].
      rewrite all_in_cons, Hc, Hw. cbn [app length].
      replace (i + S (length w)) with (S i + length w) by lia. rewrite Hk'. auto.
    + exists [], (c :: s). cbn [app length starts_in all_in forallb].
      rewrite Nat.add_0_r, Hc. auto.
Qed.

Lemma run_Opt cs p acc ms i c s :
  run (Opt cs :: p) acc ms i (c :: s)
  = if mem cs c then
      match run p acc ms (S i) s with
      | Some r => Some r
      | None => run p acc ms i (c :: s)
      end
    else run p acc ms i (c :: s).
Proof. reflexivity. Qed.

Lemma run_Opt_nil cs p acc ms i :
  run (Opt cs :: p) acc ms i [] = run p acc ms i [].
Proof. reflexivity. Qed.

Lemma run_opt_never_fails cs ms j t :
  run [Opt cs] (fun _ => true) ms j t <> None.
Proof. destruct t as [|c t]; cbn; [discriminate|]. destruct (mem cs c); discriminate. Qed.

(** The end of the pattern of [string.cc], [\s*\n?], when nothing follows
    the pattern: all the white space is taken. *)
Lemma run_tail_newline ms j s e ms' :
  run [ws; Opt (Lit LF)] (fun _ => true) ms j s = Some (e, ms') ->
  exists r post, s = r ++ post /\ space_run r /\ starts_in Space post = false
                 /\ e = j + length r /\ ms' = ms.
Proof.
  unfold ws. rewrite run_Star. intros H.
  destruct (greedy_always Space (run [Opt (Lit LF)] (fun _ => true) ms)
              (run_opt_never_fails _ ms) s j) as (r & post & -> & Hr & Hp & Hg).
  rewrite Hg, (run_opt_newline_end _ _ _ Hp) in H. inversion H; subst.
  exists r, post. auto.
Qed.

Lemma run_tail_newline_never_fails ms j t :
  run [ws; Opt (Lit LF)] (fun _ => true) ms j t <> None.
Proof.
  unfold ws. rewrite run_Star.
  destruct (greedy_always Space (run [Opt (Lit LF)] (fun _ => true) ms)
              (run_opt_never_fails _ ms) t j) as (r & post & -> & _ & _ & Hg).
  rewrite Hg. apply run_opt_never_fails.
Qed.

Lemma run_tail_semicolon_never_fails ms j t :
  run [Opt (Lit (chr ";")); ws; Opt (Lit LF)] (fun _ => true) ms j t <> None.
Proof.
  destruct t as [|c t]; [rewrite run_Opt_nil|rewrite run_Opt].
  - apply run_tail_newline_never_fails.
  - destruct (mem (Lit (chr ";")) c).
    + destruct (run [ws; Opt (Lit LF)] (fun _ => true) ms (S j) t) eqn:E;
        [discriminate|].
      exfalso. eapply run_tail_newline_never_fails, E.
    + apply run_tail_newline_never_fails.
Qed.

(** The end of the pattern of [deserializer.cc], [\s*;?\s*\n?]: the white
    space, the semicolon when there is one, and the white space after
    it. *)
Lemma run_tail_semicolon ms j s e ms' :
  run [ws; Opt (Lit (chr ";")); ws; Opt (Lit LF)] (fun _ => true) ms j s = Some (e, ms') ->
  exists a6 semi r post,
    s = a6 ++ semi ++ r ++ post
    /\ (semi = txt ";" \/ semi = [] /\ r = [] /\ starts_in (Lit (chr ";")) post = false)
    /\ space_run a6 /\ space_run r /\ starts_in Space post = false
    /\ e = j + length (a6 ++ semi ++ r) /\ ms' = ms.
Proof.
  unfold ws at 1. rewrite run_Star. intros H.
  destruct (greedy_always Space
              (run [Opt (Lit (chr ";")); ws; Opt (Lit LF)] (fun _ => true) ms)
              (run_tail_semicolon_never_fails ms) s j)
    as (a6 & s' & -> & Ha & Hs' & Hg).
  rewrite Hg in H. clear Hg.
  assert (Hplain : run [ws; Opt (Lit LF)] (fun _ => true) ms (j + length a6) s'
                   = Some (e, ms') ->
                   starts_in (Lit (chr ";")) s' = false ->
                   exists a6' semi r post,
                     a6 ++ s' = a6' ++ semi ++ r ++ post
                     /\ (semi = txt ";"
                         \/ semi = [] /\ r = [] /\ starts_in (Lit (chr ";")) post = false)
                     /\ space_run a6' /\ space_run r /\ starts_in Space post = false
                     /\ e = j + length (a6' ++ semi ++ r) /\ ms' = ms).
  { intros H' Hsemi.
    apply run_tail_newline in H' as (r & post & E & Hr & Hp & -> & ->).
    assert (r = []) as ->.
    { destruct r as [|c r]; [reflexivity|]. subst s'. cbn [app starts_in] in Hs'.
      unfold space_run in Hr. rewrite all_in_cons, Hs' in Hr. discriminate Hr. }
    cbn [app] in E. subst s'.
    exists a6, [], [], post. cbn [app length]. rewrite app_nil_r, Nat.add_0_r.
    repeat split; auto. }
  destruct s' as [|c t]; [rewrite run_Opt_nil in H|rewrite run_Opt in H].
  - apply Hplain; [exact H|reflexivity].
  - destruct (mem (Lit (chr ";")) c) eqn:Hc.
    + destruct (run [ws; Opt (Lit LF)] (fun _ => true) ms (S (j + length a6)) t)
        as [[e1 m1]|] eqn:E.
      * inversion H; subst e1 m1.
        apply run_tail_newline in E as (r & post & -> & Hr & Hp & -> & ->).
        cbn [mem] in Hc. apply N.eqb_eq in Hc. subst c.
        exists a6, (txt ";"), r, post.
        repeat split; auto. rewrite !length_app. cbn [length txt]. cbn. lia.
      * exfalso. eapply run_tail_newline_never_fails, E.
    + apply Hplain; [exact H|exact Hc].
Qed.

(** The search, read backwards: the match it returns is a match at its
    offset, and no match begins before it. *)
Lemma scan_leftmost p : forall s i b e ms,
  scan p false i s = Some (b, e, ms) ->
  exists k, b = i + k /\ k <= length s
            /\ run p (fun _ => true) [] b (skipn k s) = Some (e, ms)
            /\ forall k', k' < k ->
                 run p (fun _ => true) [] (i + k') (skipn k' s) = None.
Proof.
  induction s as [|c s IH]; intros i b e ms H; cbn [scan] in H;
    change (fun e0 : nat => negb (false && Nat.eqb e0 i)) with (fun _ : nat => true) in H.
  - destruct (run p _ [] i []) as [[e1 m1]|] eqn:Hr; [|discriminate].
    inversion H; subst. exists 0. rewrite Nat.add_0_r. cbn [skipn length].
    repeat split; [lia|exact Hr|intros; lia].
  - destruct (run p _ [] i (c :: s)) as [[e1 m1]|] eqn:Hr.
    + inversion H; subst. exists 0. rewrite Nat.add_0_r. cbn [skipn length].
      repeat split; [lia|exact Hr|intros; lia].
    + apply IH in H as (k & -> & Hk & H & Hbefore).
      exists (S k). cbn [skipn length].
      replace (i + S k) with (S i + k) by lia.
      repeat split; [lia|exact H|].
      intros [|k'] Hk'.
      * rewrite Nat.add_0_r. exact Hr.
      * cbn [skipn]. replace (i + S k') with (S i + k') by lia. apply Hbefore. lia.
Qed.

Lemma re_search_inv p s b e ms :
  re_search p s = Some (b, e, ms) ->
  b <= length s
  /\ run p (fun _ => true) [] b (skipn b s) = Some (e, ms)
  /\ no_match_before p s b = true.
Proof.
  unfold re_search. intros H.
  apply scan_leftmost in H as (k & -> & Hk & H & Hbefore). cbn [Nat.add] in *.
  repeat split; [exact Hk|exact H|].
  unfold no_match_before. apply forallb_forall. intros k' Hin.
  apply in_seq in Hin. unfold matches_at. rewrite Hbefore by lia. reflexivity.
Qed.

(** A text cut at the two ends of a match that begins at [b]. *)
Lemma cut_at_match (s middle post : list N) b :
  b <= length s -> skipn b s = middle ++ post ->
  s = firstn b s ++ middle ++ post
  /\ length (firstn b s) = b
  /\ skipn (b + length middle) s = post.
Proof.
  intros Hb E. split; [rewrite <- E, firstn_skipn; reflexivity|].
  split; [rewrite length_firstn; lia|].
  rewrite Nat.add_comm, <- skipn_skipn, E. apply drop_app_length.
Qed.

(** *** What the rules match, and only that *)

(** A match of the pattern of [string.cc], up to its closing brace. *)
Lemma string_cc_run_inv acc ms i s res :
  run string_cc_pattern acc ms i s = Some res ->
  exists l a1 a2 a3 a4 a5 a6 body rest,
    space_run l /\ space_run a1 /\ space_run a2 /\ space_run a3 /\ space_run a4
    /\ space_run a5 /\ space_run a6 /\ all_in (Not (chr "}")) body = true
    /\ s = l ++ guard_block a1 a2 a3 a4 a5 a6 body ++ rest
    /\ run [ws; Opt (Lit LF)] acc ms
         (i + length (l ++ guard_block a1 a2 a3 a4 a5 a6 body)) rest = Some res.
Proof.
  unfold string_cc_pattern. unfold ws at 1 2 3 4 5 6 7.
  rewrite !lits_lit_ops. cbn [app]. intros H.
  apply run_star_inv in H as (l & r0 & -> & Hl & H).
  apply run_lit_ops_inv in H as (r0' & -> & H).
  apply run_star_inv in H as (a1 & r1 & -> & H1 & H).
  apply run_lit_ops_inv in H as (r1' & -> & H).
  apply run_star_inv in H as (a2 & r2 & -> & H2 & H).
  apply run_lit_ops_inv in H as (r2' & -> & H).
  apply run_star_inv in H as (a3 & r3 & -> & H3 & H).
  apply run_lit_ops_inv in H as (r3' & -> & H).
  apply run_star_inv in H as (a4 & r4 & -> & H4 & H).
  apply run_lit_ops_inv in H as (r4' & -> & H).
  apply run_star_inv in H as (a5 & r5 & -> & H5 & H).
  apply run_lit_ops_inv in H as (r5' & -> & H).
  apply run_star_inv in H as (a6 & r6 & -> & H6 & H).
  apply run_lit_ops_inv in H as (r6' & -> & H).
  apply run_star_inv in H as (body & r7 & -> & Hb & H).
  apply run_lit_ops_inv in H as (rest & -> & H).
  exists l, a1, a2, a3, a4, a5, a6, body, rest. unfold space_run.
  repeat (split; [assumption|]). split.
  - unfold guard_block. rewrite <- !app_assoc. reflexivity.
  - match type of H with
    | run _ _ _ ?j _ = _ =>
        replace (i + length (l ++ guard_block a1 a2 a3 a4 a5 a6 body)) with j
          by (unfold guard_block; rewrite !length_app; lia)
    end.
    exact H.
Qed.

(** X7. The [string.cc] rule removes guard blocks and nothing else. Whenever
    the detection pattern is found in a text, the text is [pre], white
    space [l], a guard block ([if ( len > kMaxShortPrintLength ) { body }]
    with white space between its tokens and a body without a closing
    brace), white space [r], and [post]; the match is [l], the block and
    [r]; no match begins inside [pre]; [post] does not begin with white
    space (all the white space after the block belongs to the match); and
    the rewrite puts one newline in place of the match, keeps [pre] and
    goes on in [post]. *)
Theorem string_cc_match_shape (s : list N) (b e : nat) (ms : marks) :
  re_search string_cc_pattern s = Some (b, e, ms) ->
  exists pre l a1 a2 a3 a4 a5 a6 body r post,
    s = pre ++ l ++ guard_block a1 a2 a3 a4 a5 a6 body ++ r ++ post
    /\ b = length pre
    /\ e = length pre + length (l ++ guard_block a1 a2 a3 a4 a5 a6 body ++ r)
    /\ ms = []
    /\ space_run l /\ space_run a1 /\ space_run a2 /\ space_run a3 /\ space_run a4
    /\ space_run a5 /\ space_run a6 /\ all_in (Not (chr "}")) body = true
    /\ space_run r /\ starts_in Space post = false
    /\ no_match_before string_cc_pattern s (length pre) = true
    /\ re_sub string_cc_pattern string_cc_repl s
       = pre ++ [LF] ++ re_sub string_cc_pattern string_cc_repl post.
Proof.
  intros Hs. destruct (re_search_inv _ _ _ _ _ Hs) as (Hb & Hrun & Hno).
  apply string_cc_run_inv in Hrun
    as (l & a1 & a2 & a3 & a4 & a5 & a6 & body & rest
        & Hl & H1 & H2 & H3 & H4 & H5 & H6 & Hbody & E & Htail).
  apply run_tail_newline in Htail as (r & post & -> & Hr & Hp & He & ->).
  assert (E' : skipn b s = (l ++ guard_block a1 a2 a3 a4 a5 a6 body ++ r) ++ post)
    by (rewrite E, <- !app_assoc; reflexivity).
  destruct (cut_at_match s _ post b Hb E') as (Hcut & Hlen & Hpost).
  assert (He' : e = b + length (l ++ guard_block a1 a2 a3 a4 a5 a6 body ++ r))
    by (rewrite He, !length_app; lia).
  exists (firstn b s), l, a1, a2, a3, a4, a5, a6, body, r, post.
  rewrite Hlen.
  split; [rewrite Hcut at 1; rewrite <- !app_assoc; reflexivity|].
  split; [reflexivity|]. split; [exact He'|]. split; [reflexivity|].
  repeat (split; [assumption|]).
  rewrite (re_sub_step _ _ _ _ _ _ Hs).
  - rewrite He', Hpost. reflexivity.
  - pose proof (guard_block_length a1 a2 a3 a4 a5 a6 body).
    rewrite He', !length_app. lia.
Qed.

Lemma string_cc_match_shape_witness :
  exists pre post,
    length pre = 9
    /\ re_sub string_cc_pattern string_cc_repl guard_source
       = pre ++ [LF] ++ re_sub string_cc_pattern string_cc_repl post.
Proof.
  destruct (string_cc_match_shape guard_source 9 91 []
              ltac:(vm_compute; reflexivity))
    as (pre & l & a1 & a2 & a3 & a4 & a5 & a6 & body & r & post
        & _ & Hb & _ & _ & _ & _ & _ & _ & _ & _ & _ & _ & _ & _ & _ & Hsub).
  exists pre, post. split; [symmetry; exact Hb|exact Hsub].
Defined.

(** A match of the pattern of [deserializer.cc], up to its closing
    parenthesis. *)
Lemma deserializer_cc_run_inv acc ms i s res :
  run deserializer_cc_pattern acc ms i s = Some res ->
  exists l a1 a2 a3 a4 a5 rest,
    space_run l /\ space_run a1 /\ space_run a2 /\ space_run a3 /\ space_run a4
    /\ space_run a5
    /\ s = l ++ check_eq a1 a2 a3 a4 a5 ++ rest
    /\ run [ws; Opt (Lit (chr ";")); ws; Opt (Lit LF)] acc ms
         (i + length (l ++ check_eq a1 a2 a3 a4 a5)) rest = Some res.
Proof.
  unfold deserializer_cc_pattern. unfold ws at 1 2 3 4 5 6.
  rewrite !lits_lit_ops. cbn [app]. intros H.
  apply run_star_inv in H as (l & r0 & -> & Hl & H).
  apply run_lit_ops_inv in H as (r0' & -> & H).
  apply run_star_inv in H as (a1 & r1 & -> & H1 & H).
  apply run_lit_ops_inv in H as (r1' & -> & H).
  apply run_star_inv in H as (a2 & r2 & -> & H2 & H).
  apply run_lit_ops_inv in H as (r2' & -> & H).
  apply run_star_inv in H as (a3 & r3 & -> & H3 & H).
  apply run_lit_ops_inv in H as (r3' & -> & H).
  apply run_star_inv in H as (a4 & r4 & -> & H4 & H).
  apply run_lit_ops_inv in H as (r4' & -> & H).
  apply run_star_inv in H as (a5 & r5 & -> & H5 & H).
  apply run_lit_ops_inv in H as (rest & -> & H).
  exists l, a1, a2, a3, a4, a5, rest. unfold space_run.
  repeat (split; [assumption|]). split.
  - unfold check_eq. rewrite <- !app_assoc. reflexivity.
  - match type of H with
    | run _ _ _ ?j _ = _ =>
        replace (i + length (l ++ check_eq a1 a2 a3 a4 a5)) with j
          by (unfold check_eq; rewrite !length_app; lia)
    end.
    exact H.
Qed.

(** X8. The [deserializer.cc] rule removes the assertion on the magic number
    and nothing else, but also when no semicolon follows it. Whenever the
    detection pattern is found in a text, the text is [pre], white space
    [l], [CHECK_EQ ( magic_number_ , SerializedData::kMagicNumber )] with
    white space between its tokens, white space [a6], then either a
    semicolon and white space [r], or nothing when what follows is not a
    semicolon, and [post]; the match is all of this between [pre] and
    [post]; no match begins inside [pre]; [post] does not begin with white
    space; and the rewrite drops the match, keeps [pre] and goes on in
    [post]. *)
Theorem deserializer_cc_match_shape (s : list N) (b e : nat) (ms : marks) :
  re_search deserializer_cc_pattern s = Some (b, e, ms) ->
  exists pre l a1 a2 a3 a4 a5 a6 semi r post,
    s = pre ++ l ++ check_eq a1 a2 a3 a4 a5 ++ a6 ++ semi ++ r ++ post
    /\ b = length pre
    /\ e = length pre + length (l ++ check_eq a1 a2 a3 a4 a5 ++ a6 ++ semi ++ r)
    /\ ms = []
    /\ (semi = txt ";" \/ semi = [] /\ r = [] /\ starts_in (Lit (chr ";")) post = false)
    /\ space_run l /\ space_run a1 /\ space_run a2 /\ space_run a3 /\ space_run a4
    /\ space_run a5 /\ space_run a6 /\ space_run r /\ starts_in Space post = false
    /\ no_match_before deserializer_cc_pattern s (length pre) = true
    /\ re_sub deserializer_cc_pattern deserializer_cc_repl s
       = pre ++ re_sub deserializer_cc_pattern deserializer_cc_repl post.
Proof.
  intros Hs. destruct (re_search_inv _ _ _ _ _ Hs) as (Hb & Hrun & Hno).
  apply deserializer_cc_run_inv in Hrun
    as (l & a1 & a2 & a3 & a4 & a5 & rest & Hl & H1 & H2 & H3 & H4 & H5 & E & Htail).
  apply run_tail_semicolon in Htail
    as (a6 & semi & r & post & -> & Hsemi & H6 & Hr & Hp & He & ->).
  assert (E' : skipn b s
               = (l ++ check_eq a1 a2 a3 a4 a5 ++ a6 ++ semi ++ r) ++ post)
    by (rewrite E, <- !app_assoc; reflexivity).
  destruct (cut_at_match s _ post b Hb E') as (Hcut & Hlen & Hpost).
  assert (He' : e = b + length (l ++ check_eq a1 a2 a3 a4 a5 ++ a6 ++ semi ++ r))
    by (rewrite He, !length_app; lia).
  exists (firstn b s), l, a1, a2, a3, a4, a5, a6, semi, r, post.
  rewrite Hlen.
  split; [rewrite Hcut at 1; rewrite <- !app_assoc; reflexivity|].
  split; [reflexivity|]. split; [exact He'|]. split; [reflexivity|].
  repeat (split; [assumption|]).
  rewrite (re_sub_step _ _ _ _ _ _ Hs).
  - rewrite He', Hpost. reflexivity.
  - pose proof (check_eq_length a1 a2 a3 a4 a5).
    rewrite He', !length_app. lia.
Qed.

Lemma deserializer_cc_match_shape_witness :
  exists pre post,
    length pre = 8
    /\ re_sub deserializer_cc_pattern deserializer_cc_repl check_source
       = pre ++ re_sub deserializer_cc_pattern deserializer_cc_repl post.
Proof.
  destruct (deserializer_cc_match_shape check_source 8 68 []
              ltac:(vm_compute; reflexivity))
    as (pre & l & a1 & a2 & a3 & a4 & a5 & a6 & semi & r & post
        & _ & Hb & _ & _ & _ & _ & _ & _ & _ & _ & _ & _ & _ & _ & _ & Hsub).
  exists pre, post. split; [symmetry; exact Hb|exact Hsub].
Defined.

(** A match of the pattern of [code-serializer.cc]: the signature, white
    space, the three statements; the two marks of group 1 are at the ends
    of the signature. *)
Lemma code_serializer_cc_run_inv acc ms i s e ms' :
  run code_serializer_cc_pattern acc ms i s = Some (e, ms') ->
  exists s1 s2 params s3 s4 b0 b cond args rest,
    space_run s1 /\ s1 <> [] /\ space_run s2 /\ space_run s3 /\ space_run s4
    /\ all_in (Not (chr ")")) params = true
    /\ space_run b0 /\ spacing_ok b
    /\ all_in (Not (chr ")")) cond = true /\ all_in (Not (chr ")")) args = true
    /\ s = signature s1 s2 params s3 s4 ++ b0 ++ statements b cond args ++ rest
    /\ e = i + length (signature s1 s2 params s3 s4 ++ b0 ++ statements b cond args)
    /\ ms' = (1, i + length (signature s1 s2 params s3 s4)) :: (0, i) :: ms.
Proof.
  unfold code_serializer_cc_pattern, ws, ws1.
  rewrite !lits_lit_ops. cbn [app]. intros H.
  rewrite run_Mark in H.
  apply run_lit_ops_inv in H as (r0 & -> & H).
  apply run_plus_inv in H as (s1 & r1 & -> & Hs1 & Hn1 & H).
  apply run_lit_ops_inv in H as (r1' & -> & H).
  apply run_star_inv in H as (s2 & r2 & -> & Hs2 & H).
  apply run_lit_ops_inv in H as (r2' & -> & H).
  apply run_star_inv in H as (params & r3 & -> & Hpar & H).
  apply run_lit_ops_inv in H as (r3' & -> & H).
  apply run_star_inv in H as (s3 & r4 & -> & Hs3 & H).
  apply run_lit_ops_inv in H as (r4' & -> & H).
  apply run_star_inv in H as (s4 & r5 & -> & Hs4 & H).
  apply run_lit_ops_inv in H as (r5' & -> & H).
  rewrite run_Mark in H.
  apply run_star_inv in H as (b0 & r6 & -> & Hb0 & H).
  apply run_lit_ops_inv in H as (r6' & -> & H).
  apply run_plus_inv in H as (c1 & t1 & -> & Hc1 & Hm1 & H).
  apply run_lit_ops_inv in H as (t1' & -> & H).
  apply run_star_inv in H as (c2 & t2 & -> & Hc2 & H).
  apply run_lit_ops_inv in H as (t2' & -> & H).
  apply run_star_inv in H as (c3 & t3 & -> & Hc3 & H).
  apply run_lit_ops_inv in H as (t3' & -> & H).
  apply run_star_inv in H as (c4 & t4 & -> & Hc4 & H).
  apply run_lit_ops_inv in H as (t4' & -> & H).
  apply run_star_inv in H as (c5 & t5 & -> & Hc5 & H).
  apply run_lit_ops_inv in H as (t5' & -> & H).
  apply run_star_inv in H as (c6 & t6 & -> & Hc6 & H).
  apply run_lit_ops_inv in H as (t6' & -> & H).
  apply run_star_inv in H as (c7 & t7 & -> & Hc7 & H).
  apply run_lit_ops_inv in H as (t7' & -> & H).
  apply run_star_inv in H as (c8 & t8 & -> & Hc8 & H).
  apply run_lit_ops_inv in H as (t8' & -> & H).
  apply run_star_inv in H as (cond & t9 & -> & Hcond & H).
  apply run_lit_ops_inv in H as (t9' & -> & H).
  apply run_star_inv in H as (c9 & t10 & -> & Hc9 & H).
  apply run_lit_ops_inv in H as (t10' & -> & H).
  apply run_plus_inv in H as (c10 & t11 & -> & Hc10 & Hm10 & H).
  apply run_lit_ops_inv in H as (t11' & -> & H).
  apply run_star_inv in H as (c11 & t12 & -> & Hc11 & H).
  apply run_lit_ops_inv in H as (t12' & -> & H).
  apply run_star_inv in H as (c12 & t13 & -> & Hc12 & H).
  apply run_lit_ops_inv in H as (t13' & -> & H).
  apply run_plus_inv in H as (c13 & t14 & -> & Hc13 & Hm13 & H).
  apply run_lit_ops_inv in H as (t14' & -> & H).
  apply run_star_inv in H as (c14 & t15 & -> & Hc14 & H).
  apply run_lit_ops_inv in H as (t15' & -> & H).
  apply run_star_inv in H as (args & t16 & -> & Hargs & H).
  apply run_lit_ops_inv in H as (t16' & -> & H).
  apply run_star_inv in H as (c15 & t17 & -> & Hc15 & H).
  apply run_lit_ops_end_inv in H as (rest & -> & -> & ->).
  exists s1, s2, params, s3, s4, b0,
    (mkSpacing c1 c2 c3 c4 c5 c6 c7 c8 c9 c10 c11 c12 c13 c14 c15), cond, args, rest.
  unfold space_run, spacing_ok, space_run.
  cbn [b1 b2 b3 b4 b5 b6 b7 b8 b9 b10 b11 b12 b13 b14 b15].
  do 7 (split; [assumption|]).
  split; [repeat (split; [assumption|]); assumption|].
  do 2 (split; [assumption|]).
  unfold signature, statements.
  cbn [b1 b2 b3 b4 b5 b6 b7 b8 b9 b10 b11 b12 b13 b14 b15].
  split; [rewrite <- !app_assoc; reflexivity|].
  split; [rewrite !length_app; lia|].
  f_equal. f_equal. rewrite !length_app. lia.
Qed.

(** X9. The [code-serializer.cc] rule rewrites the body of [SanityCheck]
    and nothing else. Whenever the detection pattern is found in a text,
    the text is [pre], the signature of
    [SerializedCodeData::SanityCheck] up to its opening brace, white space
    [b0], the three statements (white space between their tokens, no
    closing parenthesis inside the parentheses), and [post]; the match
    begins at the signature and ends at the semicolon of the third
    statement; group 1 is the signature; no match begins inside [pre]; and
    the rewrite keeps [pre] and the signature, puts a newline, two spaces
    and [return SerializedCodeSanityCheckResult::kSuccess;] in place of
    [b0] and the statements, and goes on in [post]. *)
Theorem code_serializer_cc_match_shape (s : list N) (b e : nat) (ms : marks) :
  re_search code_serializer_cc_pattern s = Some (b, e, ms) ->
  exists pre s1 s2 params s3 s4 b0 sp cond args post,
    s = pre ++ signature s1 s2 params s3 s4 ++ b0 ++ statements sp cond args ++ post
    /\ b = length pre
    /\ e = length pre
           + length (signature s1 s2 params s3 s4 ++ b0 ++ statements sp cond args)
    /\ group s ms 1 = signature s1 s2 params s3 s4
    /\ space_run s1 /\ s1 <> [] /\ space_run s2 /\ space_run s3 /\ space_run s4
    /\ all_in (Not (chr ")")) params = true
    /\ space_run b0 /\ spacing_ok sp
    /\ all_in (Not (chr ")")) cond = true /\ all_in (Not (chr ")")) args = true
    /\ no_match_before code_serializer_cc_pattern s (length pre) = true
    /\ re_sub code_serializer_cc_pattern code_serializer_cc_repl s
       = pre ++ signature s1 s2 params s3 s4 ++ success_return
         ++ re_sub code_serializer_cc_pattern code_serializer_cc_repl post.
Proof.
  intros Hs. destruct (re_search_inv _ _ _ _ _ Hs) as (Hb & Hrun & Hno).
  apply code_serializer_cc_run_inv in Hrun
    as (s1 & s2 & params & s3 & s4 & b0 & sp & cond & args & post
        & Hs1 & Hn1 & Hs2 & Hs3 & Hs4 & Hpar & Hb0 & Hsp & Hcond & Hargs & E & He & Hms).
  set (sig := signature s1 s2 params s3 s4) in *.
  set (body := statements sp cond args) in *.
  assert (E' : skipn b s = (sig ++ b0 ++ body) ++ post)
    by (rewrite E, <- !app_assoc; reflexivity).
  destruct (cut_at_match s _ post b Hb E') as (Hcut & Hlen & Hpost).
  assert (Hg : group s ms 1 = sig).
  { rewrite Hms. unfold group, substr. cbn [get_mark Nat.mul Nat.sub Nat.add Nat.eqb].
    rewrite E. replace (b + length sig - b) with (length sig) by lia.
    apply take_app_length. }
  exists (firstn b s), s1, s2, params, s3, s4, b0, sp, cond, args, post.
  fold sig body. rewrite Hlen.
  split; [rewrite Hcut at 1; rewrite <- !app_assoc; reflexivity|].
  split; [reflexivity|]. split; [exact He|]. split; [exact Hg|].
  do 10 (split; [assumption|]). split; [exact Hno|].
  rewrite (re_sub_step _ _ _ _ _ _ Hs).
  - unfold code_serializer_cc_repl. cbn [expand]. rewrite Hg, He, Hpost.
    fold success_return. rewrite app_nil_r, <- !app_assoc. reflexivity.
  - pose proof (statements_length sp cond args). fold body in H.
    rewrite He, !length_app. lia.
Qed.

Lemma code_serializer_cc_match_shape_witness :
  exists pre sig post,
    length pre = 9
    /\ group sanity_source [(1, 116); (0, 9)] 1 = sig
    /\ re_sub code_serializer_cc_pattern code_serializer_cc_repl sanity_source
       = pre ++ sig ++ success_return
         ++ re_sub code_serializer_cc_pattern code_serializer_cc_repl post.
Proof.
  destruct (code_serializer_cc_match_shape sanity_source 9 315 [(1, 116); (0, 9)]
              ltac:(vm_compute; reflexivity))
    as (pre & s1 & s2 & params & s3 & s4 & b0 & sp & cond & args & post
        & _ & Hb & _ & Hg & _ & _ & _ & _ & _ & _ & _ & _ & _ & _ & _ & Hsub).
  exists pre, (signature s1 s2 params s3 s4), post.
  split; [symmetry; exact Hb|]. split; [exact Hg|exact Hsub].
Defined.

(** *** The rewritten text is shorter *)

(** Every match of a rule's pattern is longer than what replaces it. *)
Lemma rule_match_shrinks i s adv b e ms :
  scan (detect (rule_of i)) adv 0 s = Some (b, e, ms) ->
  length (expand (rewrite (rule_of i)) s ms) < e - b.
Proof.
  intros H. apply scan_inv in H as (k & acc & Hb & Hk & H). cbn [Nat.add] in Hb. subst k.
  destruct i; cbn [rule_of detect rewrite] in *.
  - apply run_min_len in H.
    assert (M : min_len string_cc_pattern = 30) by (vm_compute; reflexivity).
    rewrite M in H. cbn [string_cc_repl expand app length]. lia.
  - apply run_min_len in H.
    assert (M : min_len deserializer_cc_pattern = 52) by (vm_compute; reflexivity).
    rewrite M in H. cbn [deserializer_cc_repl expand length]. lia.
  - apply code_serializer_cc_run_inv in H
      as (s1 & s2 & params & s3 & s4 & b0 & sp & cond & args & post
          & _ & _ & _ & _ & _ & _ & _ & _ & _ & _ & E & -> & ->).
    unfold code_serializer_cc_repl. cbn [expand]. fold success_return.
    unfold group, substr. cbn [get_mark Nat.mul Nat.sub Nat.add Nat.eqb].
    pose proof (statements_length sp cond args).
    rewrite !length_app, length_firstn, success_return_length. cbn [length]. lia.
Qed.

Lemma sub_loop_shrinks p repl :
  (forall s adv b e ms,
     scan p adv 0 s = Some (b, e, ms) -> length (expand repl s ms) < e - b) ->
  forall fuel adv s t,
    sub_loop fuel p repl adv s = Some t ->
    length t <= length s /\ (scan p adv 0 s <> None -> length t < length s).
Proof.
  intros Hshrink. induction fuel as [|fuel IH]; intros adv s t H; [discriminate|].
  rewrite sub_loop_S in H.
  destruct (scan p adv 0 s) as [[[b e] ms]|] eqn:Hs.
  - destruct (sub_loop fuel p repl (Nat.eqb e b) (skipn e s)) as [t'|] eqn:Hrec;
      [|discriminate].
    inversion H; subst t. apply IH in Hrec as [Hle _].
    pose proof (Hshrink _ _ _ _ _ Hs) as Hlt.
    apply scan_bounds in Hs as (_ & Hbe & He & _). cbn [Nat.add] in He.
    rewrite !length_app, length_firstn. rewrite length_skipn in Hle.
    split; [lia|intros _; lia].
  - inversion H; subst t. split; [lia|congruence].
Qed.

Lemma re_sub_shrinks i s :
  length (re_sub (detect (rule_of i)) (rewrite (rule_of i)) s) <= length s
  /\ (re_search (detect (rule_of i)) s <> None ->
      length (re_sub (detect (rule_of i)) (rewrite (rule_of i)) s) < length s).
Proof.
  apply (sub_loop_shrinks _ _ (rule_match_shrinks i) (sub_fuel s) false s).
  apply re_sub_loop.
Qed.

(** X10. Each of the three rewrites makes the text shorter: the result of
    [re.sub] is never longer than its input, and it is strictly shorter
    whenever the detection pattern is found. So the test [content ==
    new_content] that each executor makes after the rewrite never holds:
    the outcome "no change" does not occur, and the "content unchanged"
    line is never logged. *)
Theorem rewrite_always_shortens (i : rule_id) :
  (forall s, length (re_sub (detect (rule_of i)) (rewrite (rule_of i)) s) <= length s)
  /\ (forall s, re_search (detect (rule_of i)) s <> None ->
        length (re_sub (detect (rule_of i)) (rewrite (rule_of i)) s) < length s)
  /\ (forall self w,
        spec_outcome (rule_of i) self w <> no_change
        /\ ~ In (Unchanged (name_of i)) (report i self w)).
Proof.
  split; [intros s; apply re_sub_shrinks|].
  split; [intros s; apply re_sub_shrinks|].
  intros self w.
  assert (Hne : forall t,
            re_search (detect (rule_of i)) t <> None ->
            t <> re_sub (detect (rule_of i)) (rewrite (rule_of i)) t).
  { intros t Hs E. apply re_sub_shrinks in Hs. rewrite <- E in Hs. lia. }
  unfold spec_outcome, report, patched.
  destruct (fs w !! (v8_dir self ++ target (rule_of i))) as [[f| |e]|];
    try (split; [discriminate|cbn [In]; intros [?|[]]; discriminate]).
  - destruct (read_fault f);
      try (split; [discriminate|cbn [In]; intros [?|[]]; discriminate]).
    destruct (re_search (detect (rule_of i)) (universal_newlines (content f))) eqn:Hs.
    + rewrite bool_decide_eq_false_2 by (apply Hne; rewrite Hs; discriminate).
      destruct (write_fault f);
        (split; [discriminate|cbn [In]; intros [?|[]]; discriminate]).
    + split; [discriminate|].
      destruct i; try destruct (contains _ _); cbn [In];
        intros H; repeat destruct H as [H|H]; try discriminate; exact H.
  - split; [discriminate|]. cbn [In]. tauto.
Qed.

(** *** Line ends *)

Lemma universal_newlines_bounds : forall n s,
  length s <= n ->
  all_in (Not CR) (universal_newlines s) = true
  /\ length (universal_newlines s) <= length s.
Proof.
  induction n as [|n IH]; intros s Hn.
  - destruct s; [cbn; auto|cbn in Hn; lia].
  - destruct s as [|c s]; [cbn; auto|]. cbn [length] in Hn. cbn [universal_newlines].
    destruct (c =? CR)%N eqn:Hc.
    + destruct s as [|d s]; [cbn; auto|]. cbn [length] in Hn.
      destruct (d =? LF)%N.
      * destruct (IH s ltac:(lia)) as [H1 H2].
        rewrite all_in_cons, H1. cbn [length]. split; [reflexivity|lia].
      * destruct (IH (d :: s) ltac:(cbn [length]; lia)) as [H1 H2].
        rewrite all_in_cons, H1. cbn [length] in *. split; [reflexivity|lia].
    + destruct (IH s ltac:(lia)) as [H1 H2].
      rewrite all_in_cons, H1. cbn [mem length]. rewrite Hc. split; [reflexivity|lia].
Qed.

Lemma universal_newlines_id s :
  all_in (Not CR) s = true -> universal_newlines s = s.
Proof.
  induction s as [|c s IH]; [reflexivity|].
  rewrite all_in_cons. intros H. apply andb_true_iff in H as [Hc Hs].
  cbn [mem] in Hc. apply negb_true_iff in Hc.
  cbn [universal_newlines]. rewrite Hc, (IH Hs). reflexivity.
Qed.

Lemma all_in_firstn cs n : forall s, all_in cs s = true -> all_in cs (firstn n s) = true.
Proof.
  induction n as [|n IH]; intros [|c s] H; try reflexivity.
  rewrite all_in_cons in H. apply andb_true_iff in H as [Hc Hs].
  cbn [firstn]. rewrite all_in_cons, Hc, (IH s Hs). reflexivity.
Qed.

Lemma all_in_skipn cs n : forall s, all_in cs s = true -> all_in cs (skipn n s) = true.
Proof.
  induction n as [|n IH]; intros [|c s] H; try reflexivity; try exact H.
  rewrite all_in_cons in H. apply andb_true_iff in H as [Hc Hs].
  cbn [skipn]. apply IH, Hs.
Qed.

Lemma expand_all_in cs repl s ms :
  all_in cs s = true -> template_in cs repl = true ->
  all_in cs (expand repl s ms) = true.
Proof.
  intros Hs. induction repl as [|[t|n] repl IH]; [reflexivity| |];
    cbn [template_in forallb expand]; intros H; apply andb_true_iff in H as [Ht Hr];
    rewrite all_in_app, (IH Hr), andb_true_r.
  - exact Ht.
  - unfold group. destruct (get_mark _ ms); [|reflexivity].
    destruct (get_mark _ ms); [|reflexivity].
    unfold substr. apply all_in_firstn, all_in_skipn, Hs.
Qed.

(** [re.sub] brings in no character that is neither in the subject nor in
    the replacement. *)
Lemma sub_loop_all_in cs p repl :
  template_in cs repl = true ->
  forall fuel adv s t,
    all_in cs s = true -> sub_loop fuel p repl adv s = Some t -> all_in cs t = true.
Proof.
  intros Hrepl. induction fuel as [|fuel IH]; intros adv s t Hs H; [discriminate|].
  rewrite sub_loop_S in H.
  destruct (scan p adv 0 s) as [[[b e] ms]|]; [|inversion H; subst; exact Hs].
  destruct (sub_loop fuel p repl (Nat.eqb e b) (skipn e s)) as [t'|] eqn:Hrec;
    [|discriminate].
  inversion H; subst t. rewrite !all_in_app.
  rewrite (all_in_firstn _ _ _ Hs), (expand_all_in _ _ _ _ Hs Hrepl).
  rewrite (IH _ _ _ (all_in_skipn _ e _ Hs) Hrec). reflexivity.
Qed.

Lemma patched_no_cr i t : all_in (Not CR) (patched (rule_of i) t) = true.
Proof.
  unfold patched.
  apply (sub_loop_all_in (Not CR) (detect (rule_of i)) (rewrite (rule_of i))
           ltac:(destruct i; reflexivity)
           (sub_fuel (universal_newlines t)) false (universal_newlines t)).
  - apply (universal_newlines_bounds (length t)). lia.
  - apply re_sub_loop.
Qed.

(** X11. A patched file has Unix line ends and is shorter than before. When
    a rule is applied, the text written to the target is the rewrite of the
    text as read (with [\r\n] and [\r] read as [\n]); it holds no carriage
    return, also when the file had DOS line ends; it is strictly shorter
    than the old content, so the file has changed; and reading the file
    again gives exactly the text that was written. *)
Theorem patched_file_has_unix_line_ends (i : rule_id) (self : patcher) (w : world) :
  spec_outcome (rule_of i) self w = applied ->
  exists f f',
    fs w !! (v8_dir self ++ target (rule_of i)) = Some (File f)
    /\ fs (snd (executor i self w)) !! (v8_dir self ++ target (rule_of i)) = Some (File f')
    /\ content f' = patched (rule_of i) (content f)
    /\ all_in (Not CR) (content f') = true
    /\ length (content f') < length (content f)
    /\ fst (read_text (v8_dir self ++ target (rule_of i)) (snd (executor i self w)))
       = Ret (content f').
Proof.
  intros Ho.
  destruct (spec_outcome_applied_file _ _ _ Ho) as (f & Hf & Hr & Hw & Hs & Hne).
  pose proof (patched_no_cr i (content f)) as Hcr.
  exists f, (mkFile (patched (rule_of i) (content f)) (read_fault f) None).
  split; [exact Hf|].
  assert (Hfs : fs (snd (executor i self w)) !! (v8_dir self ++ target (rule_of i))
                = Some (File (mkFile (patched (rule_of i) (content f)) (read_fault f) None))).
  { rewrite executor_fs, fs_after_lookup, Ho, Hf. reflexivity. }
  split; [exact Hfs|]. cbn [content].
  split; [reflexivity|]. split; [exact Hcr|]. split.
  - destruct (universal_newlines_bounds (length (content f)) (content f) ltac:(lia))
      as [_ Hlen].
    apply re_sub_shrinks in Hs. unfold patched. lia.
  - unfold read_text. rewrite Hfs. cbn [read_fault content]. rewrite Hr.
    cbn [fst]. rewrite (universal_newlines_id _ Hcr). reflexivity.
Qed.

Lemma patched_file_has_unix_line_ends_witness :
  exists f',
    fs (snd (executor string_rule (init ["v8"] ["log"]) crlf_world))
      !! ["v8"; "src"; "objects"; "string.cc"] = Some (File f')
    /\ content f' = patched (rule_of string_rule) crlf_source
    /\ all_in (Not CR) (content f') = true.
Proof.
  destruct (patched_file_has_unix_line_ends string_rule (init ["v8"] ["log"]) crlf_world
              ltac:(vm_compute; reflexivity))
    as (f & f' & Hf & Hf' & Hc & Hcr & _ & _).
  assert (E : f = mkFile crlf_source None None).
  { assert (Hf0 : fs crlf_world
                    !! (v8_dir (init ["v8"] ["log"]) ++ target (rule_of string_rule))
                  = Some (File (mkFile crlf_source None None)))
      by (vm_compute; reflexivity).
    rewrite Hf0 in Hf. inversion Hf. reflexivity. }
  subst f. exists f'. split; [exact Hf'|]. split; [exact Hc|exact Hcr].
Defined.

(** *** Files that a rule leaves alone *)

(** A text without [SanityCheckWithoutSource] has no match of the pattern
    of [code-serializer.cc]. *)
Lemma code_serializer_cc_no_match s :
  contains (txt "SanityCheckWithoutSource") s = false ->
  re_search code_serializer_cc_pattern s = None.
Proof.
  intros Hc. destruct (re_search code_serializer_cc_pattern s) as [[[b e] ms]|] eqn:Hs;
    [|reflexivity].
  unfold re_search in Hs. apply scan_inv in Hs as (k & acc & _ & _ & Hr).
  apply code_serializer_cc_run_inv in Hr
    as (s1 & s2 & params & s3 & s4 & b0 & sp & cond & args & rest
        & _ & _ & _ & _ & _ & _ & _ & _ & _ & _ & E & _ & _).
  assert (contains (txt "SanityCheckWithoutSource") s = true); [|congruence].
  apply (contains_skipn _ k). rewrite E. unfold statements.
  replace (signature s1 s2 params s3 s4 ++ b0
           ++ (txt "SerializedCodeSanityCheckResult" ++ b1 sp ++ txt "result" ++ b2 sp
               ++ txt "=" ++ b3 sp ++ txt "SanityCheckWithoutSource" ++ b4 sp ++ txt "("
               ++ b5 sp ++ txt ")" ++ b6 sp ++ txt ";" ++ b7 sp ++ txt "if" ++ b8 sp
               ++ txt "(" ++ cond ++ txt ")" ++ b9 sp ++ txt "return" ++ b10 sp
               ++ txt "result" ++ b11 sp ++ txt ";" ++ b12 sp ++ txt "return" ++ b13 sp
               ++ txt "SanityCheckJustSource" ++ b14 sp ++ txt "(" ++ args ++ txt ")"
               ++ b15 sp ++ txt ";") ++ rest)
    with ((signature s1 s2 params s3 s4 ++ b0
           ++ txt "SerializedCodeSanityCheckResult" ++ b1 sp ++ txt "result" ++ b2 sp
           ++ txt "=" ++ b3 sp)
          ++ txt "SanityCheckWithoutSource"
          ++ (b4 sp ++ txt "("
              ++ b5 sp ++ txt ")" ++ b6 sp ++ txt ";" ++ b7 sp ++ txt "if" ++ b8 sp
              ++ txt "(" ++ cond ++ txt ")" ++ b9 sp ++ txt "return" ++ b10 sp
              ++ txt "result" ++ b11 sp ++ txt ";" ++ b12 sp ++ txt "return" ++ b13 sp
              ++ txt "SanityCheckJustSource" ++ b14 sp ++ txt "(" ++ args ++ txt ")"
              ++ b15 sp ++ txt ";" ++ rest))
    by (rewrite <- !app_assoc; reflexivity).
  apply contains_here.
Qed.

Lemma rule_no_match i s :
  contains (marker i) s = false -> re_search (detect (rule_of i)) s = None.
Proof.
  destruct i; cbn [marker rule_of detect].
  - apply string_cc_no_match.
  - apply deserializer_cc_no_match.
  - apply code_serializer_cc_no_match.
Qed.

Lemma not_found_untouched i self w f :
  fs w !! (v8_dir self ++ target (rule_of i)) = Some (File f) ->
  read_fault f = None ->
  re_search (detect (rule_of i)) (universal_newlines (content f)) = None ->
  spec_outcome (rule_of i) self w = pattern_not_found
  /\ fst (executor i self w) = Ret true
  /\ fs (snd (executor i self w)) = fs w.
Proof.
  intros Hf Hr Hs.
  assert (Ho : spec_outcome (rule_of i) self w = pattern_not_found)
    by (unfold spec_outcome; rewrite Hf, Hr, Hs; reflexivity).
  split; [exact Ho|].
  rewrite executor_result, executor_fs, fs_after_not_applied by (rewrite Ho; discriminate).
  rewrite Ho. split; reflexivity.
Qed.

(** X12. A file that does not mention the identifier of its rule is left
    alone. When the target can be read and its text holds no occurrence of
    [kMaxShortPrintLength] (for [string.cc]), of
    [SerializedData::kMagicNumber] (for [deserializer.cc]), of
    [SanityCheckWithoutSource] (for [code-serializer.cc]), the detection
    pattern is not found: the executor returns [True], logs the "not found"
    line and leaves the file system as it was. *)
Theorem marker_free_file_is_left_alone (i : rule_id) (self : patcher) (w : world)
    (f : file) :
  fs w !! (v8_dir self ++ target (rule_of i)) = Some (File f) ->
  read_fault f = None ->
  contains (marker i) (universal_newlines (content f)) = false ->
  spec_outcome (rule_of i) self w = pattern_not_found
  /\ fst (executor i self w) = Ret true
  /\ fs (snd (executor i self w)) = fs w
  /\ In (NotFound (name_of i)) (report i self w).
Proof.
  intros Hf Hr Hm. pose proof (rule_no_match i _ Hm) as Hs.
  destruct (not_found_untouched i self w f Hf Hr Hs) as (Ho & Hres & Hfs).
  repeat (split; [assumption|]).
  unfold report. rewrite Hf, Hr, Hs. left. reflexivity.
Qed.

Lemma marker_free_file_is_left_alone_witness :
  fst (executor deserializer_rule (init ["v8"] ["log"]) demo_world) = Ret true
  /\ fs (snd (executor deserializer_rule (init ["v8"] ["log"]) demo_world)) = fs demo_world.
Proof.
  destruct (marker_free_file_is_left_alone deserializer_rule (init ["v8"] ["log"])
              demo_world (mkFile (txt "int magic_number_;") None None)
              ltac:(vm_compute; reflexivity) eq_refl ltac:(vm_compute; reflexivity))
    as (_ & Hres & Hfs & _).
  split; [exact Hres|exact Hfs].
Defined.

(** X13. On a [string.cc] with one guard block the rule is applied once and
    for all. Let the text of the file be [pre], white space, a guard block,
    white space, [post], where [kMaxShortPrintLength] occurs neither in
    [pre] nor in [post], [pre] does not end and [post] does not begin with
    white space. The first call of the executor applies the rule; a second
    call, in the world that the first one leaves, does not find the
    pattern, returns [True] and leaves the file system as it is. *)
Theorem string_cc_second_run_is_no_op
    (pre l a1 a2 a3 a4 a5 a6 body r post : list N)
    (self : patcher) (w : world) (f : file) :
  space_run l -> space_run a1 -> space_run a2 -> space_run a3 ->
  space_run a4 -> space_run a5 -> space_run a6 -> space_run r ->
  all_in (Not (chr "}")) body = true ->
  starts_in Space post = false ->
  contains keyword pre = false -> ends_in Space pre = false ->
  contains keyword post = false ->
  fs w !! (v8_dir self ++ string_cc) = Some (File f) ->
  read_fault f = None -> write_fault f = None ->
  universal_newlines (content f)
  = pre ++ l ++ guard_block a1 a2 a3 a4 a5 a6 body ++ r ++ post ->
  spec_outcome (rule_of string_rule) self w = applied
  /\ fs (snd (patch_string_cc self w)) !! (v8_dir self ++ string_cc)
     = Some (File (mkFile (pre ++ [LF] ++ post) None None))
  /\ spec_outcome (rule_of string_rule) self (snd (patch_string_cc self w))
     = pattern_not_found
  /\ fst (patch_string_cc self (snd (patch_string_cc self w))) = Ret true
  /\ fs (snd (patch_string_cc self (snd (patch_string_cc self w))))
     = fs (snd (patch_string_cc self w)).
Proof.
  intros Hl H1 H2 H3 H4 H5 H6 Hr Hb Hp Kpre Epre Kpost Hf Hrf Hwf Hcontent.
  set (u := pre ++ l ++ guard_block a1 a2 a3 a4 a5 a6 body ++ r ++ post) in *.
  assert (Hno : no_match_before string_cc_pattern u (length pre) = true).
  { subst u. rewrite guard_block_front. apply string_cc_no_earlier_match; assumption. }
  assert (Hs : re_search string_cc_pattern u
               = Some (length pre,
                       length pre + length (l ++ guard_block a1 a2 a3 a4 a5 a6 body ++ r),
                       [])).
  { apply re_search_at; [exact Hno|]. apply string_cc_run; assumption. }
  assert (Hsub : re_sub string_cc_pattern string_cc_repl u = pre ++ [LF] ++ post).
  { rewrite (re_sub_step _ _ _ _ _ _ Hs).
    - subst u. rewrite take_app_length.
      replace (pre ++ l ++ guard_block a1 a2 a3 a4 a5 a6 body ++ r ++ post)
        with ((pre ++ l ++ guard_block a1 a2 a3 a4 a5 a6 body ++ r) ++ post)
        by (rewrite <- !app_assoc; reflexivity).
      rewrite <- length_app, drop_app_length.
      rewrite (re_sub_none _ _ post (string_cc_no_match post Kpost)). reflexivity.
    - pose proof (guard_block_length a1 a2 a3 a4 a5 a6 body). rewrite !length_app. lia. }
  destruct (executor_applies string_rule self w f (pre ++ [LF] ++ post))
    as (Ho & _ & Hfs); try assumption.
  { cbn [rule_of detect]. rewrite Hcontent, Hs. discriminate. }
  { cbn [rule_of detect rewrite]. rewrite Hcontent. exact Hsub. }
  { rewrite Hcontent. intros E. apply (f_equal (@length N)) in E.
    pose proof (guard_block_length a1 a2 a3 a4 a5 a6 body).
    subst u. rewrite !length_app in E. cbn [length] in E. lia. }
  cbn [executor rule_of target] in Hfs.
  split; [exact Ho|].
  assert (Hnew : fs (snd (patch_string_cc self w)) !! (v8_dir self ++ string_cc)
                 = Some (File (mkFile (pre ++ [LF] ++ post) None None)))
    by (rewrite Hfs; apply lookup_insert_eq).
  split; [exact Hnew|].
  assert (Hcr : all_in (Not CR) (pre ++ [LF] ++ post) = true).
  { rewrite <- Hsub, <- Hcontent. apply (patched_no_cr string_rule). }
  apply (not_found_untouched string_rule self (snd (patch_string_cc self w))
           (mkFile (pre ++ [LF] ++ post) None None)); [exact Hnew|reflexivity|].
  cbn [content rule_of detect]. rewrite (universal_newlines_id _ Hcr).
  apply string_cc_no_match. cbn [app].
  rewrite contains_sep by (discriminate || reflexivity).
  rewrite Kpre, Kpost. reflexivity.
Qed.

Lemma string_cc_second_run_is_no_op_witness :
  fst (patch_string_cc (init ["v8"] ["log"])
         (snd (patch_string_cc (init ["v8"] ["log"]) original_world))) = Ret true
  /\ fs (snd (patch_string_cc (init ["v8"] ["log"])
                (snd (patch_string_cc (init ["v8"] ["log"]) original_world))))
     = fs (snd (patch_string_cc (init ["v8"] ["log"]) original_world)).
Proof.
  destruct (string_cc_second_run_is_no_op (txt "  Add(x);") ([LF] ++ txt "  ")
              (txt " ") [] (txt " ") (txt " ") [] (txt " ")
              ([LF] ++ txt "    accumulator->Put('>');" ++ [LF] ++ txt "    return;"
               ++ [LF] ++ txt "  ")
              ([LF] ++ txt "  ") (txt "Print();" ++ [LF])
              (init ["v8"] ["log"]) original_world (mkFile guard_source None None)
              eq_refl eq_refl eq_refl eq_refl eq_refl eq_refl eq_refl eq_refl
              eq_refl eq_refl eq_refl eq_refl eq_refl
              ltac:(vm_compute; reflexivity) eq_refl eq_refl
              ltac:(vm_compute; reflexivity))
    as (_ & _ & _ & Hres & Hfs).
  split; [exact Hres|exact Hfs].
Defined.
